(** * Rule 111: OPEN DATASET without MODE / ENCODING

    A shallow embedding of [src/app/app.py] and the properties of its
    rule engine.

    Text is a list of characters; a character is a code point of the
    8-bit range (Stdlib's [ascii]), and the classes [\s], [\w] and the
    case folding of [(?i)] are the ones Python's [re] uses for [str]
    patterns on those code points.  Offsets and line numbers are Python
    integers, hence [Z]. *)

From Stdlib Require Import Ascii String ZArith NArith Bool Lia List Sorted.
Import ListNotations.

Local Open Scope Z_scope.

(* ------------------------------------------------------------------ *)
(** * Characters *)

Definition ord (c : ascii) : N := N_of_ascii c.

Definition in_range (lo hi : N) (c : ascii) : bool :=
  ((lo <=? ord c) && (ord c <=? hi))%N.

(** [\s] of a [str] pattern: Unicode white space. *)
Definition is_space (c : ascii) : bool :=
  in_range 9 13 c || in_range 28 32 c || (ord c =? 133)%N || (ord c =? 160)%N.

(** [\w] of a [str] pattern: alphanumeric code points and the underscore. *)
Definition is_word (c : ascii) : bool :=
  in_range 48 57 c || in_range 65 90 c || (ord c =? 95)%N || in_range 97 122 c
  || (ord c =? 170)%N || in_range 178 179 c || (ord c =? 181)%N
  || in_range 185 186 c || in_range 188 190 c
  || in_range 192 214 c || in_range 216 246 c || in_range 248 255 c.

(** Simple lower-casing, as [(?i)] applies it to a character of the text. *)
Definition lower (c : ascii) : ascii :=
  if in_range 65 90 c || (in_range 192 222 c && negb (ord c =? 215)%N)
  then ascii_of_N (ord c + 32)
  else c.

(** A literal [k] of an ignore-case pattern against a character [x]. *)
Definition ci_eqb (k x : ascii) : bool := Ascii.eqb (lower x) (lower k).

Definition newline : ascii := "010"%char.
Definition dot : ascii := "."%char.
Definition not_dot (c : ascii) : bool := negb (Ascii.eqb c dot).
Definition not_space (c : ascii) : bool := negb (is_space c).

(* ------------------------------------------------------------------ *)
(** * Python slices and string helpers *)

(** A slice bound, as [PySlice_AdjustIndices] normalises it for step 1. *)
Definition adjust_index (len i : Z) : Z :=
  if i <? 0 then Z.max 0 (i + len) else Z.min i len.

(** [l[lo:hi]] *)
Definition py_slice {A} (l : list A) (lo hi : Z) : list A :=
  let len := Z.of_nat (length l) in
  let a := adjust_index len lo in
  let b := adjust_index len hi in
  firstn (Z.to_nat (b - a)) (skipn (Z.to_nat a) l).

(** [text.count(ch, lo, hi)] for a one-character needle. *)
Definition py_count (ch : ascii) (text : list ascii) (lo hi : Z) : Z :=
  Z.of_nat (count_occ ascii_dec (py_slice text lo hi) ch).

(** [text.replace(old, new)] for a one-character [old]. *)
Definition py_replace (old : ascii) (new : list ascii) (text : list ascii)
  : list ascii :=
  flat_map (fun c => if Ascii.eqb c old then new else [c]) text.

(* ------------------------------------------------------------------ *)
(** * Regular expressions

    The fragment of [re] syntax the four patterns of the module use.
    Every pattern carries [(?i)], so a literal is compared through
    [ci_eqb].  [(?s)] and [re.DOTALL] only change the meaning of an
    unescaped dot, which no pattern contains. *)

Inductive regex : Type :=
  | Eps
  | Chr (k : ascii)                 (* a literal character, ignore-case *)
  | Cls (p : ascii -> bool)         (* a one-character class *)
  | Bnd                             (* \b *)
  | Cat (r1 r2 : regex)
  | Alt (r1 r2 : regex)
  | Star (p : ascii -> bool).       (* greedy repetition of a class *)

(** A position in the subject: the characters before it, nearest first,
    and the characters from it on. *)
Record cursor : Type := Cursor { before : list ascii; after : list ascii }.

Definition offset (c : cursor) : Z := Z.of_nat (length (before c)).

Definition start_of (text : list ascii) : cursor := Cursor [] text.

Definition word_at (l : list ascii) : bool :=
  match l with
  | x :: _ => is_word x
  | [] => false
  end.

(** [\b]: exactly one side of the position is a word character. *)
Definition at_boundary (c : cursor) : bool :=
  xorb (word_at (before c)) (word_at (after c)).

Section Exec.
Context {X : Type}.

(** Greedy repetition: take a character if possible and come back to
    the shorter repetition only when the rest of the pattern fails. *)
Fixpoint exec_star (p : ascii -> bool) (k : cursor -> option X)
         (b s : list ascii) : option X :=
  match s with
  | x :: s' =>
      if p x then
        match exec_star p k (x :: b) s' with
        | Some v => Some v
        | None => k (Cursor b s)
        end
      else k (Cursor b s)
  | [] => k (Cursor b s)
  end.

(** The backtracking matcher: [exec r c k] matches [r] at [c] and hands
    every end position, in priority order, to the continuation [k]
    until [k] accepts one. *)
Fixpoint exec (r : regex) (c : cursor) (k : cursor -> option X) : option X :=
  match r with
  | Eps => k c
  | Chr a =>
      match after c with
      | x :: s' => if ci_eqb a x then k (Cursor (x :: before c) s') else None
      | [] => None
      end
  | Cls p =>
      match after c with
      | x :: s' => if p x then k (Cursor (x :: before c) s') else None
      | [] => None
      end
  | Bnd => if at_boundary c then k c else None
  | Cat r1 r2 => exec r1 c (fun c' => exec r2 c' k)
  | Alt r1 r2 =>
      match exec r1 c k with
      | Some v => Some v
      | None => exec r2 c k
      end
  | Star p => exec_star p k (before c) (after c)
  end.
End Exec.

(** One match attempt at a position: the end of the match. *)
Definition match_at (r : regex) (c : cursor) : option cursor := exec r c Some.

(** [pattern.search]: the leftmost position from [c] on where the
    pattern matches, with the end of that match. *)
Fixpoint search_from (r : regex) (b s : list ascii) : option (cursor * cursor) :=
  match match_at r (Cursor b s) with
  | Some e => Some (Cursor b s, e)
  | None =>
      match s with
      | x :: s' => search_from r (x :: b) s'
      | [] => None
      end
  end.

Definition search (r : regex) (text : list ascii) : option (cursor * cursor) :=
  search_from r [] text.

(** A match object: the subject and the two offsets. *)
Record Match : Type := MkMatch {
  m_string : list ascii;
  m_start : Z;
  m_end : Z
}.

(** [m.group(0)] *)
Definition group0 (m : Match) : list ascii :=
  py_slice (m_string m) (m_start m) (m_end m).

(** [pattern.finditer]: search, report, search again from the end of the
    match.  The fuel bounds the number of matches; a match that is not
    empty moves the cursor forward, so one more than the length of the
    subject is enough (see [finditer_fuel_enough]). *)
Fixpoint finditer_fuel (fuel : nat) (r : regex) (text : list ascii)
         (c : cursor) : list Match :=
  match fuel with
  | O => []
  | S fuel' =>
      match search_from r (before c) (after c) with
      | Some (s, e) =>
          MkMatch text (offset s) (offset e) :: finditer_fuel fuel' r text e
      | None => []
      end
  end.

Definition finditer (r : regex) (text : list ascii) : list Match :=
  finditer_fuel (S (length text)) r text (start_of text).

(** ** The patterns of the module *)

Fixpoint lit (w : list ascii) : regex :=
  match w with
  | [] => Eps
  | a :: w' => Cat (Chr a) (lit w')
  end.

Definition kw (s : string) : regex := lit (list_ascii_of_string s).

Definition plus (p : ascii -> bool) : regex := Cat (Cls p) (Star p).

Definition sequence (rs : list regex) : regex := fold_right Cat Eps rs.

(** [(?is)\bOPEN\s+DATASET\b[^.]*\.] *)
Definition STMT_RE : regex :=
  sequence [Bnd; kw "OPEN"; plus is_space; kw "DATASET"; Bnd;
       Star not_dot; Chr dot].

(** [(?i)\bIN\s+(TEXT|BINARY)\s+MODE\b] *)
Definition MODE_RE : regex :=
  sequence [Bnd; kw "IN"; plus is_space; Alt (kw "TEXT") (kw "BINARY");
       plus is_space; kw "MODE"; Bnd].

(** [(?i)\bIN\s+TEXT\s+MODE\b] *)
Definition TEXT_MODE_RE : regex :=
  sequence [Bnd; kw "IN"; plus is_space; kw "TEXT"; plus is_space; kw "MODE"; Bnd].

(** [(?i)\bENCODING\b\s+\S+] *)
Definition ENCODING_RE : regex :=
  sequence [Bnd; kw "ENCODING"; Bnd; plus is_space; plus not_space].

(** [pattern.search(stmt) is not None] *)
Definition found (r : regex) (stmt : list ascii) : bool :=
  match search r stmt with
  | Some _ => true
  | None => false
  end.

(* ------------------------------------------------------------------ *)
(** * Models *)

(** The finding record [scan_unit] builds; its keys are the fields of
    [class Finding], its values have the types of what the code stores
    in them. *)
Module Finding.
Record t : Type := Make {
  pgm_name : string;
  inc_name : string;
  type : string;
  name : option string;
  start_line : option Z;
  end_line : option Z;
  issue_type : string;
  severity : string;
  line : Z;
  message : string;
  suggestion : string;
  snippet : string
}.
End Finding.

(** [class Unit]; an [Optional] field is an [option].  The object
    [scan_unit] returns has the same keys, with [rule111_findings]
    replaced by the findings of the scan. *)
Module Unit.
Record t : Type := Make {
  pgm_name : string;
  inc_name : string;
  type : string;
  name : option string;
  start_line : option Z;
  end_line : option Z;
  code : option string;
  rule111_findings : option (list Finding.t)
}.

(** [obj = unit.model_dump(); obj["rule111_findings"] = findings] *)
Definition dump_with (unit : t) (findings : list Finding.t) : t :=
  Make (pgm_name unit) (inc_name unit) (type unit) (name unit)
       (start_line unit) (end_line unit) (code unit) (Some findings).
End Unit.

(* ------------------------------------------------------------------ *)
(** * Utility helpers *)

(** [text.count("\n", 0, off) + 1] *)
Definition line_of_offset (text : list ascii) (off : Z) : Z :=
  py_count newline text 0 off + 1.

Definition backslash_n : list ascii := ["\"%char; "n"%char].

Definition snippet_at (text : list ascii) (start end_ : Z) : list ascii :=
  let s := Z.max 0 (start - 60) in
  let e := Z.min (Z.of_nat (length text)) (end_ + 60) in
  py_replace newline backslash_n (py_slice text s e).

(* ------------------------------------------------------------------ *)
(** * Rule detection logic *)

(** [unit.code or ''], where [''] is the empty string *)
Definition code_or_empty (unit : Unit.t) : string :=
  match Unit.code unit with
  | Some (String a s) => String a s
  | Some EmptyString => EmptyString
  | None => EmptyString
  end.

Definition src_of (unit : Unit.t) : list ascii :=
  list_ascii_of_string (code_or_empty unit).

Definition has_mode (stmt : list ascii) : bool := found MODE_RE stmt.
Definition is_text_mode (stmt : list ascii) : bool := found TEXT_MODE_RE stmt.
Definition has_encoding (stmt : list ascii) : bool := found ENCODING_RE stmt.

Definition no_mode_finding (unit : Unit.t) (src : list ascii) (m : Match)
  : Finding.t :=
  {| Finding.pgm_name := Unit.pgm_name unit;
     Finding.inc_name := Unit.inc_name unit;
     Finding.type := Unit.type unit;
     Finding.name := Unit.name unit;
     Finding.start_line := Unit.start_line unit;
     Finding.end_line := Unit.end_line unit;
     Finding.issue_type := "OpenDatasetNoMode";
     Finding.severity := "warning";
     Finding.line := line_of_offset src (m_start m);
     Finding.message := "OPEN DATASET without MODE or ENCODING.";
     Finding.suggestion :=
       "Specify IN TEXT MODE ENCODING UTF-8 or IN BINARY MODE. OPEN DATASET without MODE or ENCODING.";
     Finding.snippet :=
       string_of_list_ascii (snippet_at src (m_start m) (m_end m)) |}.

Definition text_no_encoding_finding (unit : Unit.t) (src : list ascii)
           (m : Match) : Finding.t :=
  {| Finding.pgm_name := Unit.pgm_name unit;
     Finding.inc_name := Unit.inc_name unit;
     Finding.type := Unit.type unit;
     Finding.name := Unit.name unit;
     Finding.start_line := Unit.start_line unit;
     Finding.end_line := Unit.end_line unit;
     Finding.issue_type := "OpenDatasetTextNoEncoding";
     Finding.severity := "info";
     Finding.line := line_of_offset src (m_start m);
     Finding.message := "OPEN DATASET in TEXT MODE without explicit ENCODING.";
     Finding.suggestion :=
       "Add ENCODING UTF-8 (or the required codepage). OPEN DATASET without MODE or ENCODING.";
     Finding.snippet :=
       string_of_list_ascii (snippet_at src (m_start m) (m_end m)) |}.

(** The body of the [for m in STMT_RE.finditer(src)] loop: the list of
    findings before the iteration, the match, the list after it. *)
Definition scan_step (unit : Unit.t) (src : list ascii)
           (findings : list Finding.t) (m : Match) : list Finding.t :=
  let stmt := group0 m in
  if negb (has_mode stmt) then
    findings ++ [no_mode_finding unit src m]            (* continue *)
  else if is_text_mode stmt && negb (has_encoding stmt) then
    findings ++ [text_no_encoding_finding unit src m]
  else findings.

Definition scan_findings (unit : Unit.t) : list Finding.t :=
  let src := src_of unit in
  fold_left (scan_step unit src) (finditer STMT_RE src) [].

Definition scan_unit (unit : Unit.t) : Unit.t :=
  Unit.dump_with unit (scan_findings unit).

(* ------------------------------------------------------------------ *)
(** * Endpoints *)

(** The truth value of [res.get("rule111_findings")]. *)
Definition truthy (v : option (list Finding.t)) : bool :=
  match v with
  | Some (_ :: _) => true
  | Some [] => false
  | None => false
  end.

(** [POST /remediate-array] *)
Definition scan_rule111 (units : list Unit.t) : list Unit.t :=
  fold_left
    (fun results u =>
       let res := scan_unit u in
       if truthy (Unit.rule111_findings res) then results ++ [res]
       else results)
    units [].

(* ------------------------------------------------------------------ *)
(** * What a pattern denotes

    [matches r b w s]: the pattern [r] matches the word [w] when [b] is
    what precedes it (nearest character first) and [s] is what follows.
    This is the meaning of the pattern, independent of the order in
    which the matcher tries the alternatives. *)

Fixpoint matches (r : regex) (b w s : list ascii) : Prop :=
  match r with
  | Eps => w = []
  | Chr k => exists x, w = [x] /\ ci_eqb k x = true
  | Cls p => exists x, w = [x] /\ p x = true
  | Bnd => w = [] /\ xorb (word_at b) (word_at s) = true
  | Cat r1 r2 =>
      exists w1 w2, w = w1 ++ w2 /\
        matches r1 b w1 (w2 ++ s) /\ matches r2 (rev w1 ++ b) w2 s
  | Alt r1 r2 => matches r1 b w s \/ matches r2 b w s
  | Star p => Forall (fun x => p x = true) w
  end.

(** The pattern matches somewhere in the text. *)
Definition occurs (r : regex) (text : list ascii) : Prop :=
  exists pre w post, text = pre ++ w ++ post /\ matches r (rev pre) w post.

(* ------------------------------------------------------------------ *)
(** * The specification's vocabulary *)

(** [w] is the keyword [k] in some letter case. *)
Definition same_word (k : string) (w : list ascii) : Prop :=
  Forall2 (fun a x => lower x = lower a) (list_ascii_of_string k) w.

(** One or more white-space characters. *)
Definition whitespace (ws : list ascii) : Prop :=
  ws <> [] /\ Forall (fun x => is_space x = true) ws.

(** A token is a word of its own: no word character ([\w]) touches it
    on either side. *)
Definition no_word_before (pre : list ascii) : Prop := word_at (rev pre) = false.
Definition no_word_after (post : list ascii) : Prop := word_at post = false.

(** The phrase IN, white space, one of [modes], white space, MODE, as
    tokens, anywhere in the statement. *)
Definition mode_phrase (modes : list string) (stmt : list ascii) : Prop :=
  exists pre w1 ws1 w2 ws2 w3 post,
    stmt = pre ++ w1 ++ ws1 ++ w2 ++ ws2 ++ w3 ++ post /\
    no_word_before pre /\
    same_word "IN" w1 /\ whitespace ws1 /\
    (exists k, In k modes /\ same_word k w2) /\ whitespace ws2 /\
    same_word "MODE" w3 /\
    no_word_after post.

Definition spec_has_mode : list ascii -> Prop := mode_phrase ["TEXT"; "BINARY"]%string.
Definition spec_is_text_mode : list ascii -> Prop := mode_phrase ["TEXT"]%string.

(** The token ENCODING, white space, and a token that is not white space. *)
Definition spec_has_encoding (stmt : list ascii) : Prop :=
  exists pre w ws tok post,
    stmt = pre ++ w ++ ws ++ tok ++ post /\
    no_word_before pre /\
    same_word "ENCODING" w /\ whitespace ws /\
    tok <> [] /\ Forall (fun x => is_space x = false) tok.

(** [stmt] is an OPEN DATASET statement that follows [pre] in the text:
    the two keywords as tokens separated by white space, then
    everything up to the first full stop, which it includes. *)
Definition open_dataset_stmt (pre stmt : list ascii) : Prop :=
  exists o ws d body,
    stmt = o ++ ws ++ d ++ body ++ [dot] /\
    no_word_before pre /\
    same_word "OPEN" o /\ whitespace ws /\ same_word "DATASET" d /\
    no_word_after (body ++ [dot]) /\
    ~ In dot (o ++ ws ++ d ++ body).

(** The text has a statement from offset [i] to offset [e] (exclusive). *)
Definition span_at (text : list ascii) (i e : Z) : Prop :=
  exists pre stmt post,
    text = pre ++ stmt ++ post /\
    i = Z.of_nat (length pre) /\
    e = Z.of_nat (length pre + length stmt) /\
    open_dataset_stmt pre stmt.

(** The two keywords, in any letter case and with white space between
    them, stand somewhere in the text, as tokens or inside longer
    words, and a full stop comes somewhere after them. *)
Definition open_dataset_then_dot (text : list ascii) : Prop :=
  exists pre o ws d mid post,
    text = pre ++ o ++ ws ++ d ++ mid ++ dot :: post /\
    same_word "OPEN" o /\ whitespace ws /\ same_word "DATASET" d.

(** The spans of a text, read from offset [pos] on: the leftmost
    statement that starts at or after [pos], then the spans from its end. *)
Inductive spans_from (text : list ascii) : Z -> list (Z * Z) -> Prop :=
  | spans_done pos :
      (forall i e, pos <= i -> ~ span_at text i e) ->
      spans_from text pos []
  | spans_next pos i e rest :
      pos <= i ->
      span_at text i e ->
      (forall j e', pos <= j < i -> ~ span_at text j e') ->
      spans_from text e rest ->
      spans_from text pos ((i, e) :: rest).

Definition span_of (m : Match) : Z * Z := (m_start m, m_end m).

(** The substring of [t] from offset [a] to offset [b], both within the
    text. *)
Definition substring (t : list ascii) (a b : Z) : list ascii :=
  firstn (Z.to_nat b - Z.to_nat a) (skipn (Z.to_nat a) t).

Definition clamp (lo hi x : Z) : Z := Z.max lo (Z.min hi x).

(** Every newline replaced by a backslash and the letter n. *)
Fixpoint escape_newlines (l : list ascii) : list ascii :=
  match l with
  | [] => []
  | x :: l' =>
      if Ascii.eqb x newline then "\"%char :: "n"%char :: escape_newlines l'
      else x :: escape_newlines l'
  end.

(** Number of newline characters strictly before offset [off]. *)
Definition newlines_before (text : list ascii) (off : Z) : Z :=
  Z.of_nat (count_occ ascii_dec (firstn (Z.to_nat off) text) newline).

(** Two texts that differ in letter case only. *)
Definition case_variant (t t' : list ascii) : Prop :=
  Forall2 (fun x y => lower x = lower y) t t'.

(** Keywords are made of word characters, none of them a full stop or
    white space. *)
Definition plain_letters (k : string) : bool :=
  forallb (fun a => is_word a && negb (is_space a) && not_dot a)
          (list_ascii_of_string k)
  && negb (String.eqb k EmptyString).

(** The cursor [c] is a position of [text]. *)
Definition positioned (text : list ascii) (c : cursor) : Prop :=
  text = rev (before c) ++ after c.

(** A match object of [text] whose group 0 is a statement of the text,
    at the offsets the match reports. *)
Definition statement_match (text : list ascii) (m : Match) : Prop :=
  m_string m = text /\
  exists pre post,
    text = pre ++ group0 m ++ post /\
    m_start m = Z.of_nat (length pre) /\
    m_end m = Z.of_nat (length pre + length (group0 m)) /\
    open_dataset_stmt pre (group0 m).

(** The unit has at least one finding. *)
Definition has_findings (u : Unit.t) : bool :=
  match scan_findings u with
  | [] => false
  | _ :: _ => true
  end.

(** ** Letter case *)

(** Two positions of two texts that differ in letter case only. *)
Definition cursor_rel (c c' : cursor) : Prop :=
  case_variant (before c) (before c') /\ case_variant (after c) (after c').

(** Both absent, or both present and related. *)
Definition option_rel {X Y : Type} (R : X -> Y -> Prop)
           (a : option X) (b : option Y) : Prop :=
  match a, b with
  | Some x, Some y => R x y
  | None, None => True
  | _, _ => False
  end.

(** Two continuations that agree on such positions. *)
Definition cont_rel {X Y : Type} (R : X -> Y -> Prop)
           (k : cursor -> option X) (h : cursor -> option Y) : Prop :=
  forall d d', cursor_rel d d' -> option_rel R (k d) (h d').

(** Every character class of the pattern is blind to letter case. *)
Fixpoint case_blind (r : regex) : Prop :=
  match r with
  | Cls p | Star p => forall x y, lower x = lower y -> p x = p y
  | Cat r1 r2 | Alt r1 r2 => case_blind r1 /\ case_blind r2
  | Eps | Chr _ | Bnd => True
  end.

(** Two match objects at the same offsets of two such texts. *)
Definition match_rel (m m' : Match) : Prop :=
  m_start m = m_start m' /\ m_end m = m_end m' /\
  case_variant (m_string m) (m_string m').

(** Two findings of the same kind on the same line. *)
Definition same_verdict (f f' : Finding.t) : Prop :=
  Finding.issue_type f = Finding.issue_type f' /\
  Finding.severity f = Finding.severity f' /\
  Finding.line f = Finding.line f'.

(* ------------------------------------------------------------------ *)
(** * Sample units *)

Definition sample_unit (code : option string) : Unit.t :=
  Unit.Make "ZREPORT" "ZINCLUDE" "FORM" (Some "WRITE_FILE"%string)
            (Some 10) (Some 42) code None.

Definition lf : string := String newline EmptyString.

(** Three statements on three lines: no mode, text mode without
    encoding, binary mode. *)
Definition three_statements : string :=
  ("OPEN DATASET lv_a FOR OUTPUT." ++ lf ++
   "open dataset lv_b for input in text mode." ++ lf ++
   "Open Dataset lv_c FOR INPUT IN BINARY MODE." ++ lf)%string.

(** One statement in the middle of a single long line. *)
Definition long_line : string :=
  ("DATA lv_file TYPE string. lv_file = '/usr/sap/trans/out/customers'. " ++
   "OPEN DATASET lv_file FOR OUTPUT." ++
   " IF sy-subrc <> 0. MESSAGE 'cannot open the export file' TYPE 'E'. ENDIF.")%string.

(** A statement that never ends. *)
Definition unterminated : string := "OPEN DATASET lv_file FOR OUTPUT"%string.

Definition stmt_of (s : string) : Match :=
  MkMatch (list_ascii_of_string s) 0 (Z.of_nat (String.length s)).

(* ------------------------------------------------------------------ *)
(** * Further vocabulary *)

(** The last [n] elements of a list. *)
Definition lastn {A : Type} (n : nat) (l : list A) : list A :=
  skipn (length l - n) l.

(** Number of full stops, and of newlines, in a text. *)
Definition full_stops (text : list ascii) : nat := count_occ ascii_dec text dot.
Definition newlines (text : list ascii) : nat := count_occ ascii_dec text newline.

(** Two units with the same fields, the findings they arrive with
    apart. *)
Definition same_input (u u' : Unit.t) : Prop :=
  Unit.pgm_name u = Unit.pgm_name u' /\
  Unit.inc_name u = Unit.inc_name u' /\
  Unit.type u = Unit.type u' /\
  Unit.name u = Unit.name u' /\
  Unit.start_line u = Unit.start_line u' /\
  Unit.end_line u = Unit.end_line u' /\
  Unit.code u = Unit.code u'.

(** Two match objects at the same offsets. *)
Definition same_span (m m' : Match) : Prop :=
  m_start m = m_start m' /\ m_end m = m_end m'.

(** A span moved [k] characters to the right. *)
Definition shift_span (k : Z) (p : Z * Z) : Z * Z := (fst p + k, snd p + k).

(** Two match objects, the second [k] characters to the right of the
    first. *)
Definition shifted_span (k : Z) (m m' : Match) : Prop :=
  m_start m' = m_start m + k /\ m_end m' = m_end m + k.

(** Two findings of the same kind, the second [n] lines below the
    first. *)
Definition same_verdict_below (n : Z) (f f' : Finding.t) : Prop :=
  Finding.issue_type f' = Finding.issue_type f /\
  Finding.severity f' = Finding.severity f /\
  Finding.line f' = Finding.line f + n.

(** ** White space of another kind *)

(** Two characters that are the same or both white space. *)
Definition same_blank (x y : ascii) : Prop :=
  x = y \/ (is_space x = true /\ is_space y = true).

(** Two texts that differ in the kind of their white space only. *)
Definition blank_variant (t t' : list ascii) : Prop := Forall2 same_blank t t'.

Definition blank_cursor_rel (c c' : cursor) : Prop :=
  blank_variant (before c) (before c') /\ blank_variant (after c) (after c').

Definition blank_cont_rel {X Y : Type} (R : X -> Y -> Prop)
           (k : cursor -> option X) (h : cursor -> option Y) : Prop :=
  forall d d', blank_cursor_rel d d' -> option_rel R (k d) (h d').

(** No literal of the pattern is white space, and every character class
    of the pattern treats all white space alike. *)
Fixpoint blank_blind (r : regex) : Prop :=
  match r with
  | Chr k => is_space (lower k) = false
  | Cls p | Star p => forall x y, same_blank x y -> p x = p y
  | Cat r1 r2 | Alt r1 r2 => blank_blind r1 /\ blank_blind r2
  | Eps | Bnd => True
  end.

(** Two match objects at the same offsets of two such texts. *)
Definition blank_match_rel (m m' : Match) : Prop :=
  m_start m = m_start m' /\ m_end m = m_end m' /\
  blank_variant (m_string m) (m_string m').

(** Two findings of the same kind. *)
Definition same_kind (f f' : Finding.t) : Prop :=
  Finding.issue_type f = Finding.issue_type f' /\
  Finding.severity f = Finding.severity f'.

(* ------------------------------------------------------------------ *)
(** * Facts about characters *)

Ltac each_char c := destruct c as [[] [] [] [] [] [] [] []]; vm_compute; try reflexivity; try discriminate.

Lemma space_not_word (c : ascii) : is_space c = true -> is_word c = false.
Proof. each_char c. Qed.

Lemma lower_is_space (c : ascii) : is_space (lower c) = is_space c.
Proof. each_char c. Qed.

Lemma lower_is_word (c : ascii) : is_word (lower c) = is_word c.
Proof. each_char c. Qed.

Lemma lower_is_dot (c : ascii) : Ascii.eqb (lower c) dot = Ascii.eqb c dot.
Proof. each_char c. Qed.

Lemma lower_is_newline (c : ascii) : Ascii.eqb (lower c) newline = Ascii.eqb c newline.
Proof. each_char c. Qed.

Lemma ci_eqb_spec (k x : ascii) : ci_eqb k x = true <-> lower x = lower k.
Proof. unfold ci_eqb. apply Ascii.eqb_eq. Qed.

(** A character that is a letter of a keyword in some case is a word
    character, is no white space and is no full stop. *)
Lemma same_case_word (a x : ascii) : lower x = lower a -> is_word x = is_word a.
Proof. intros H. rewrite <- (lower_is_word x), H. apply lower_is_word. Qed.

Lemma same_case_space (a x : ascii) : lower x = lower a -> is_space x = is_space a.
Proof. intros H. rewrite <- (lower_is_space x), H. apply lower_is_space. Qed.

Lemma same_case_dot (a x : ascii) :
  lower x = lower a -> Ascii.eqb x dot = Ascii.eqb a dot.
Proof. intros H. rewrite <- (lower_is_dot x), H. apply lower_is_dot. Qed.

Lemma same_case_newline (a x : ascii) :
  lower x = lower a -> Ascii.eqb x newline = Ascii.eqb a newline.
Proof. intros H. rewrite <- (lower_is_newline x), H. apply lower_is_newline. Qed.

(* ------------------------------------------------------------------ *)
(** * The matcher finds what the pattern denotes *)

Section ExecCorrect.
Context {X : Type}.
Implicit Types (k : cursor -> option X) (b w s : list ascii).

Lemma exec_star_sound p k : forall s b v,
  exec_star p k b s = Some v ->
  exists w s', s = w ++ s' /\ Forall (fun x => p x = true) w /\
               k (Cursor (rev w ++ b) s') = Some v.
Proof.
  induction s as [|x s IH]; intros b v H; simpl in H.
  - exists [], []. auto.
  - destruct (p x) eqn:Hp.
    + destruct (exec_star p k (x :: b) s) as [v'|] eqn:E.
      * injection H as ->. apply IH in E as (w & s' & -> & Hw & Hk).
        exists (x :: w), s'. simpl. rewrite <- app_assoc. auto.
      * exists [], (x :: s). auto.
    + exists [], (x :: s). auto.
Qed.

Lemma exec_star_complete p k : forall w b s' v,
  Forall (fun x => p x = true) w ->
  k (Cursor (rev w ++ b) s') = Some v ->
  exists v', exec_star p k b (w ++ s') = Some v'.
Proof.
  induction w as [|x w IH]; intros b s' v Hw Hk; simpl in *.
  - destruct s' as [|y s']; simpl; [eauto|].
    destruct (p y); [|eauto].
    destruct (exec_star p k (y :: b) s'); eauto.
  - inversion Hw as [|? ? Hx Hw']; subst. rewrite Hx.
    rewrite <- app_assoc in Hk. simpl in Hk.
    destruct (IH (x :: b) s' v Hw' Hk) as [v' ->]. eauto.
Qed.

Lemma exec_sound r : forall b s k v,
  exec r (Cursor b s) k = Some v ->
  exists w s', s = w ++ s' /\ matches r b w s' /\
               k (Cursor (rev w ++ b) s') = Some v.
Proof.
  induction r as [|a|p| |r1 IH1 r2 IH2|r1 IH1 r2 IH2|p]; intros b s k v H; simpl in H.
  - exists [], s. simpl. auto.
  - destruct s as [|x s]; [discriminate|]. destruct (ci_eqb a x) eqn:E; [|discriminate].
    exists [x], s. simpl. eauto.
  - destruct s as [|x s]; [discriminate|]. destruct (p x) eqn:E; [|discriminate].
    exists [x], s. simpl. eauto.
  - unfold at_boundary in H. simpl in H.
    destruct (xorb (word_at b) (word_at s)) eqn:E; [|discriminate].
    exists [], s. simpl. auto.
  - apply IH1 in H as (w1 & s1 & -> & M1 & H).
    apply IH2 in H as (w2 & s2 & -> & M2 & H).
    exists (w1 ++ w2), s2. rewrite <- app_assoc. split; [reflexivity|]. split.
    + simpl. eauto.
    + rewrite rev_app_distr, <- app_assoc. exact H.
  - destruct (exec r1 (Cursor b s) k) as [v'|] eqn:E.
    + injection H as ->. apply IH1 in E as (w & s' & -> & M & H).
      exists w, s'. simpl. auto.
    + apply IH2 in H as (w & s' & -> & M & H).
      exists w, s'. simpl. auto.
  - apply exec_star_sound in H as (w & s' & -> & Hw & H).
    exists w, s'. simpl. auto.
Qed.

Lemma exec_complete r : forall b w s' k v,
  matches r b w s' ->
  k (Cursor (rev w ++ b) s') = Some v ->
  exists v', exec r (Cursor b (w ++ s')) k = Some v'.
Proof.
  induction r as [|a|p| |r1 IH1 r2 IH2|r1 IH1 r2 IH2|p]; intros b w s' k v M Hk; simpl in M.
  - subst w. simpl in *. eauto.
  - destruct M as (x & -> & E). simpl in *. rewrite E. eauto.
  - destruct M as (x & -> & E). simpl in *. rewrite E. eauto.
  - destruct M as (-> & E). simpl in *. unfold at_boundary. simpl. rewrite E. eauto.
  - destruct M as (w1 & w2 & -> & M1 & M2).
    rewrite rev_app_distr, <- app_assoc in Hk.
    destruct (IH2 _ _ _ _ _ M2 Hk) as [v2 H2].
    rewrite <- app_assoc. simpl. eapply IH1; eauto.
  - simpl. destruct M as [M|M].
    + destruct (IH1 _ _ _ _ _ M Hk) as [v1 ->]. eauto.
    + destruct (exec r1 (Cursor b (w ++ s')) k); [eauto|]. eapply IH2; eauto.
  - simpl. eapply exec_star_complete; eauto.
Qed.
End ExecCorrect.

(** An attempt at a position succeeds exactly when the pattern denotes a
    word there. *)
Lemma match_at_sound r b s e :
  match_at r (Cursor b s) = Some e ->
  exists w s', s = w ++ s' /\ matches r b w s' /\ e = Cursor (rev w ++ b) s'.
Proof.
  intros H. apply exec_sound in H as (w & s' & -> & M & H).
  injection H as <-. eauto.
Qed.

Lemma match_at_complete r b w s' :
  matches r b w s' -> exists e, match_at r (Cursor b (w ++ s')) = Some e.
Proof. intros M. eapply exec_complete; eauto. Qed.

Lemma match_at_none r b s :
  match_at r (Cursor b s) = None ->
  forall w s', s = w ++ s' -> ~ matches r b w s'.
Proof.
  intros H w s' -> M. destruct (match_at_complete _ _ _ _ M) as [e E]. congruence.
Qed.

(** ** Searching *)

Lemma search_from_some r : forall s b c e,
  search_from r b s = Some (c, e) ->
  exists pre post,
    s = pre ++ post /\ c = Cursor (rev pre ++ b) post /\
    match_at r c = Some e /\
    (forall p1 p2 q, pre = p1 ++ p2 -> p2 <> [] -> q = p2 ++ post ->
       match_at r (Cursor (rev p1 ++ b) q) = None).
Proof.
  induction s as [|x s IH]; intros b c e H; simpl in H.
  - destruct (match_at r (Cursor b [])) as [e'|] eqn:E; [|discriminate].
    injection H as <- <-. exists [], []. repeat split; auto.
    intros p1 p2 q Hp. symmetry in Hp. apply app_eq_nil in Hp as [_ ->]. congruence.
  - destruct (match_at r (Cursor b (x :: s))) as [e'|] eqn:E.
    + injection H as <- <-. exists [], (x :: s). repeat split; auto.
      intros p1 p2 q Hp. symmetry in Hp. apply app_eq_nil in Hp as [_ ->]. congruence.
    + apply IH in H as (pre & post & -> & -> & Hm & Hleft).
      exists (x :: pre), post. simpl. rewrite <- app_assoc. repeat split; auto.
      intros p1 p2 q Hp Hne ->. destruct p1 as [|y p1]; simpl in *.
      * subst p2. exact E.
      * injection Hp as <- ->. rewrite <- app_assoc. simpl.
        eapply Hleft; eauto.
Qed.

Lemma search_from_none r : forall s b,
  search_from r b s = None ->
  forall pre post, s = pre ++ post -> match_at r (Cursor (rev pre ++ b) post) = None.
Proof.
  induction s as [|x s IH]; intros b H pre post Hs; simpl in H.
  - symmetry in Hs. apply app_eq_nil in Hs as [-> ->]. simpl.
    destruct (match_at r (Cursor b [])); [discriminate|reflexivity].
  - destruct (match_at r (Cursor b (x :: s))) eqn:E; [discriminate|].
    destruct pre as [|y pre]; simpl in *.
    + subst post. exact E.
    + injection Hs as <- ->. rewrite <- app_assoc. simpl. eapply IH; eauto.
Qed.

(** [found] decides [occurs]. *)
Lemma found_occurs r text : found r text = true <-> occurs r text.
Proof.
  unfold found, search, occurs. split.
  - destruct (search_from r [] text) as [[c e]|] eqn:E; [intros _|discriminate].
    apply search_from_some in E as (pre & post & -> & -> & Hm & _).
    apply match_at_sound in Hm as (w & s' & -> & M & _).
    rewrite app_nil_r in M. eauto.
  - intros (pre & w & post & -> & M).
    destruct (search_from r [] (pre ++ w ++ post)) eqn:E; [reflexivity|].
    eapply search_from_none in E; [|reflexivity].
    rewrite app_nil_r in E. eapply match_at_none in E; [|reflexivity]. contradiction.
Qed.

(* ------------------------------------------------------------------ *)
(** * The patterns, read as phrases *)

Lemma matches_lit k : forall b w s,
  matches (lit k) b w s <-> Forall2 (fun a x => lower x = lower a) k w.
Proof.
  induction k as [|a k IH]; intros b w s; simpl.
  - split; [intros ->; constructor | inversion 1; reflexivity].
  - split.
    + intros (w1 & w2 & -> & (x & -> & E) & M). apply IH in M.
      constructor; [apply ci_eqb_spec; exact E | exact M].
    + inversion 1 as [|? x ? w' E M]; subst.
      exists [x], w'. split; [reflexivity|]. split.
      * exists x. split; [reflexivity | apply ci_eqb_spec; exact E].
      * apply IH. exact M.
Qed.

Lemma matches_kw k b w s : matches (kw k) b w s <-> same_word k w.
Proof. apply matches_lit. Qed.

Lemma matches_plus p b w s :
  matches (plus p) b w s <-> w <> [] /\ Forall (fun x => p x = true) w.
Proof.
  unfold plus. simpl. split.
  - intros (w1 & w2 & -> & (x & -> & E) & M). split; [discriminate|].
    constructor; assumption.
  - intros [Hne Hw]. destruct w as [|x w]; [contradiction|].
    inversion Hw; subst. exists [x], w. eauto.
Qed.

Lemma matches_spaces b w s : matches (plus is_space) b w s <-> whitespace w.
Proof. apply matches_plus. Qed.

(** A keyword in any case is made of word characters, none of them a
    full stop or white space. *)
Lemma same_word_letters k w :
  plain_letters k = true -> same_word k w ->
  w <> [] /\
  Forall (fun x => is_word x = true /\ is_space x = false /\ x <> dot) w.
Proof.
  unfold plain_letters, same_word. intros Hk Hw.
  apply andb_true_iff in Hk as [Hall Hne]. split.
  - destruct k; [discriminate|]. inversion Hw. discriminate.
  - clear Hne. induction Hw as [|a x k' w' E Hw IH]; [constructor|].
    simpl in Hall. apply andb_true_iff in Hall as [Ha Hall].
    constructor; [|apply IH; exact Hall].
    apply andb_true_iff in Ha as [Ha Hd]. apply andb_true_iff in Ha as [Ha Hs].
    rewrite (same_case_word _ _ E), (same_case_space _ _ E).
    repeat split; auto.
    + destruct (is_space a); [discriminate|reflexivity].
    + intros ->. unfold not_dot in Hd. rewrite <- (same_case_dot _ _ E) in Hd.
      discriminate.
Qed.

Lemma word_at_head w r :
  w <> [] -> Forall (fun x => is_word x = true) w -> word_at (w ++ r) = true.
Proof. intros Hne Hw. destruct w; [contradiction|]. inversion Hw; assumption. Qed.

Lemma word_at_last w r :
  w <> [] -> Forall (fun x => is_word x = true) w -> word_at (rev w ++ r) = true.
Proof.
  intros Hne Hw. apply word_at_head.
  - intros E. apply Hne. rewrite <- (rev_involutive w), E. reflexivity.
  - apply Forall_rev. exact Hw.
Qed.

Lemma same_word_head k w r :
  plain_letters k = true -> same_word k w -> word_at (w ++ r) = true.
Proof.
  intros Hk Hw. destruct (same_word_letters _ _ Hk Hw) as [Hne Hall].
  apply word_at_head; [assumption|].
  eapply Forall_impl; [|exact Hall]. simpl. tauto.
Qed.

Lemma same_word_last k w r :
  plain_letters k = true -> same_word k w -> word_at (rev w ++ r) = true.
Proof.
  intros Hk Hw. destruct (same_word_letters _ _ Hk Hw) as [Hne Hall].
  apply word_at_last; [assumption|].
  eapply Forall_impl; [|exact Hall]. simpl. tauto.
Qed.

Lemma whitespace_head ws r : whitespace ws -> word_at (ws ++ r) = false.
Proof.
  intros [Hne Hw]. destruct ws as [|x ws]; [contradiction|].
  inversion Hw; subst. simpl. apply space_not_word. assumption.
Qed.

(** A pattern of the shape [\bIN\s+r\s+MODE\b] occurs in a statement
    exactly when the statement holds the phrase. *)
Lemma mode_shape_occurs r modes :
  (forall b w s, matches r b w s <-> exists k, In k modes /\ same_word k w) ->
  forall stmt,
    occurs (sequence [Bnd; kw "IN"; plus is_space; r; plus is_space; kw "MODE"; Bnd]) stmt
    <-> mode_phrase modes stmt.
Proof.
  intros Hr stmt. unfold occurs, mode_phrase. split.
  - intros (pre & w & post & -> & M). cbn [matches sequence fold_right] in M.
    destruct M as (w0 & r0 & -> & (-> & B1) & w1 & r1 & -> & M1 & w2 & r2 & -> & M2
                   & w3 & r3 & -> & M3 & w4 & r4 & -> & M4 & w5 & r5 & -> & M5
                   & w6 & r6 & -> & (-> & B2) & ->).
    apply matches_kw in M1, M5. apply matches_spaces in M2, M4. apply Hr in M3.
    simpl in *. rewrite app_nil_r in *.
    exists pre, w1, w2, w3, w4, w5, post.
    rewrite <- (app_assoc w1) in B1. rewrite (same_word_head "IN") in B1 by (reflexivity || assumption).
    rewrite (same_word_last "MODE") in B2 by (reflexivity || assumption).
    repeat rewrite <- app_assoc.
    repeat split; auto; try apply M2; try apply M4.
    + unfold no_word_before. destruct (word_at (rev pre)); [discriminate|reflexivity].
    + unfold no_word_after. destruct (word_at post); [discriminate|reflexivity].
  - intros (pre & w1 & w2 & w3 & w4 & w5 & post & -> & Hb & M1 & M2 & M3 & M4 & M5 & Ha).
    exists pre, (w1 ++ w2 ++ w3 ++ w4 ++ w5), post.
    split; [repeat rewrite <- app_assoc; reflexivity|].
    cbn [matches sequence fold_right].
    exists [], (w1 ++ w2 ++ w3 ++ w4 ++ w5). split; [reflexivity|]. split.
    { split; [reflexivity|]. rewrite <- (app_assoc w1).
      rewrite (same_word_head "IN") by (reflexivity || assumption).
      rewrite Hb. reflexivity. }
    exists w1, (w2 ++ w3 ++ w4 ++ w5). split; [reflexivity|].
    split; [apply matches_kw; exact M1|].
    exists w2, (w3 ++ w4 ++ w5). split; [reflexivity|].
    split; [apply matches_spaces; exact M2|].
    exists w3, (w4 ++ w5). split; [reflexivity|].
    split; [apply Hr; exact M3|].
    exists w4, w5. split; [reflexivity|].
    split; [apply matches_spaces; exact M4|].
    exists w5, []. split; [symmetry; apply app_nil_r|].
    split; [apply matches_kw; exact M5|].
    exists [], []. split; [reflexivity|]. split; [|reflexivity].
    split; [reflexivity|].
    rewrite (same_word_last "MODE") by (reflexivity || assumption).
    simpl. rewrite Ha. reflexivity.
Qed.

Lemma has_mode_spec stmt : has_mode stmt = true <-> spec_has_mode stmt.
Proof.
  unfold has_mode. rewrite found_occurs. apply mode_shape_occurs.
  intros b w s. cbn [matches]. rewrite !matches_kw. split.
  - intros [H|H]; [exists "TEXT"%string | exists "BINARY"%string]; simpl; auto.
  - intros (k & [<-|[<-|[]]] & H); auto.
Qed.

Lemma is_text_mode_spec stmt : is_text_mode stmt = true <-> spec_is_text_mode stmt.
Proof.
  unfold is_text_mode. rewrite found_occurs. apply mode_shape_occurs.
  intros b w s. rewrite matches_kw. split.
  - intros H. exists "TEXT"%string. simpl. auto.
  - intros (k & [<-|[]] & H). exact H.
Qed.

Lemma has_encoding_spec stmt : has_encoding stmt = true <-> spec_has_encoding stmt.
Proof.
  unfold has_encoding. rewrite found_occurs. unfold occurs, spec_has_encoding. split.
  - intros (pre & w & post & -> & M). cbn [matches sequence fold_right ENCODING_RE] in M.
    destruct M as (w0 & r0 & -> & (-> & B1) & w1 & r1 & -> & M1 & w2 & r2 & -> & (-> & B2)
                   & w3 & r3 & -> & M3 & w4 & r4 & -> & M4 & ->).
    apply matches_kw in M1. apply matches_spaces in M3. apply matches_plus in M4.
    simpl in *. rewrite app_nil_r in *.
    rewrite <- (app_assoc w1) in B1.
    rewrite (same_word_head "ENCODING") in B1 by (reflexivity || assumption).
    exists pre, w1, w3, w4, post. repeat rewrite <- app_assoc.
    repeat split; auto; try apply M3; try apply M4.
    + unfold no_word_before. destruct (word_at (rev pre)); [discriminate|reflexivity].
    + eapply Forall_impl; [|apply M4]. unfold not_space. intros a Ha.
      destruct (is_space a); [discriminate|reflexivity].
  - intros (pre & w1 & w3 & w4 & post & -> & Hb & M1 & M3 & Hne & M4).
    exists pre, (w1 ++ w3 ++ w4), post.
    split; [repeat rewrite <- app_assoc; reflexivity|].
    cbn [matches sequence fold_right ENCODING_RE].
    exists [], (w1 ++ w3 ++ w4). split; [reflexivity|]. split.
    { split; [reflexivity|]. rewrite <- (app_assoc w1).
      rewrite (same_word_head "ENCODING") by (reflexivity || assumption).
      rewrite Hb. reflexivity. }
    exists w1, (w3 ++ w4). split; [reflexivity|].
    split; [apply matches_kw; exact M1|].
    exists [], (w3 ++ w4). split; [reflexivity|]. split.
    { split; [reflexivity|].
      rewrite (same_word_last "ENCODING") by (reflexivity || assumption).
      rewrite <- (app_assoc w3). rewrite (whitespace_head w3) by assumption.
      reflexivity. }
    exists w3, w4. split; [reflexivity|].
    split; [apply matches_spaces; exact M3|].
    exists w4, []. split; [symmetry; apply app_nil_r|].
    split; [|reflexivity]. apply matches_plus. split; [assumption|].
    eapply Forall_impl; [|exact M4]. unfold not_space. intros a ->. reflexivity.
Qed.

(* ------------------------------------------------------------------ *)
(** * Statement spans *)

Lemma first_dot_unique (x1 x2 s1 s2 : list ascii) :
  x1 ++ dot :: s1 = x2 ++ dot :: s2 ->
  ~ In dot x1 -> ~ In dot x2 -> x1 = x2 /\ s1 = s2.
Proof.
  revert x2. induction x1 as [|a x1 IH]; intros [|b x2] E H1 H2; simpl in *.
  - injection E as ->. auto.
  - injection E as <- _. exfalso. apply H2. auto.
  - injection E as -> _. exfalso. apply H1. auto.
  - injection E as -> E. destruct (IH x2 E) as [-> ->]; auto.
Qed.

Lemma stmt_matches pre w post :
  matches STMT_RE (rev pre) w post <-> open_dataset_stmt pre w.
Proof.
  unfold open_dataset_stmt. split.
  - intros M. cbn [matches sequence fold_right STMT_RE] in M.
    destruct M as (w0 & r0 & -> & (-> & B1) & w1 & r1 & -> & M1 & w2 & r2 & -> & M2
                   & w3 & r3 & -> & M3 & w4 & r4 & -> & (-> & B2)
                   & w5 & r5 & -> & M5 & w6 & r6 & -> & (x & -> & Ex) & ->).
    apply matches_kw in M1, M3. apply matches_spaces in M2.
    apply ci_eqb_spec in Ex. apply same_case_dot in Ex.
    rewrite Ascii.eqb_refl in Ex. apply Ascii.eqb_eq in Ex. subst x.
    simpl in *. rewrite <- (app_assoc w1) in B1.
    rewrite (same_word_head "OPEN") in B1 by (reflexivity || assumption).
    rewrite (same_word_last "DATASET") in B2 by (reflexivity || assumption).
    exists w1, w2, w3, w5. repeat split; auto; try apply M2.
    + unfold no_word_before. destruct (word_at (rev pre)); [discriminate|reflexivity].
    + unfold no_word_after. rewrite <- app_assoc in B2. simpl in B2.
      destruct w5 as [|y w5]; simpl in *;
        [reflexivity | destruct (is_word y); [discriminate|reflexivity]].
    + rewrite !in_app_iff. intros [H|[H|[H|H]]].
      * destruct (same_word_letters "OPEN" w1 eq_refl M1) as [_ F].
        rewrite Forall_forall in F. apply F in H. tauto.
      * destruct M2 as [_ F]. rewrite Forall_forall in F. apply F in H. discriminate.
      * destruct (same_word_letters "DATASET" w3 eq_refl M3) as [_ F].
        rewrite Forall_forall in F. apply F in H. tauto.
      * rewrite Forall_forall in M5. apply M5 in H. discriminate.
  - intros (o & ws & d & body & -> & Hb & M1 & M2 & M3 & Ha & Hd).
    cbn [matches sequence fold_right STMT_RE].
    exists [], (o ++ ws ++ d ++ body ++ [dot]). split; [reflexivity|]. split.
    { split; [reflexivity|]. rewrite <- (app_assoc o).
      rewrite (same_word_head "OPEN") by (reflexivity || assumption).
      rewrite Hb. reflexivity. }
    exists o, (ws ++ d ++ body ++ [dot]). split; [reflexivity|].
    split; [apply matches_kw; exact M1|].
    exists ws, (d ++ body ++ [dot]). split; [reflexivity|].
    split; [apply matches_spaces; exact M2|].
    exists d, (body ++ [dot]). split; [reflexivity|].
    split; [apply matches_kw; exact M3|].
    exists [], (body ++ [dot]). split; [reflexivity|]. split.
    { split; [reflexivity|].
      rewrite (same_word_last "DATASET") by (reflexivity || assumption).
      unfold no_word_after in Ha. rewrite <- app_assoc. simpl.
      destruct body; simpl in *; [reflexivity | rewrite Ha; reflexivity]. }
    exists body, [dot]. split; [reflexivity|]. split.
    { cbn [matches]. rewrite Forall_forall. intros x Hx. unfold not_dot.
      destruct (Ascii.eqb x dot) eqn:E; [|reflexivity].
      apply Ascii.eqb_eq in E. subst x. exfalso. apply Hd.
      rewrite !in_app_iff. auto. }
    exists [dot], []. split; [reflexivity|]. split; [|reflexivity].
    exists dot. split; reflexivity.
Qed.

Lemma stmt_ends_with_dot pre w :
  open_dataset_stmt pre w -> exists x, w = x ++ [dot] /\ ~ In dot x.
Proof.
  intros (o & ws & d & body & -> & _ & _ & _ & _ & _ & Hd).
  exists (o ++ ws ++ d ++ body). split; [|exact Hd].
  repeat rewrite <- app_assoc. reflexivity.
Qed.

Lemma stmt_nonempty pre w : open_dataset_stmt pre w -> (0 < length w)%nat.
Proof.
  intros H. apply stmt_ends_with_dot in H as (x & -> & _).
  rewrite length_app. simpl. lia.
Qed.

(** From one start there is one statement. *)
Lemma stmt_unique pre w1 s1 w2 s2 :
  open_dataset_stmt pre w1 -> open_dataset_stmt pre w2 ->
  w1 ++ s1 = w2 ++ s2 -> w1 = w2 /\ s1 = s2.
Proof.
  intros H1 H2 E.
  apply stmt_ends_with_dot in H1 as (x1 & -> & D1).
  apply stmt_ends_with_dot in H2 as (x2 & -> & D2).
  rewrite <- !app_assoc in E. simpl in E.
  destruct (first_dot_unique _ _ _ _ E D1 D2) as [-> ->]. auto.
Qed.

Lemma stmt_match_at pre s e :
  match_at STMT_RE (Cursor (rev pre) s) = Some e <->
  exists w post, s = w ++ post /\ open_dataset_stmt pre w /\
                 e = Cursor (rev (pre ++ w)) post.
Proof.
  split.
  - intros H. apply match_at_sound in H as (w & post & -> & M & ->).
    apply stmt_matches in M. exists w, post. rewrite rev_app_distr. auto.
  - intros (w & post & -> & M & ->).
    destruct (match_at_complete STMT_RE (rev pre) w post) as [e E];
      [apply stmt_matches; exact M|].
    rewrite E. f_equal.
    apply match_at_sound in E as (w' & post' & E' & M' & ->).
    apply stmt_matches in M'.
    destruct (stmt_unique _ _ _ _ _ M M' E') as [<- <-].
    rewrite rev_app_distr. reflexivity.
Qed.

Lemma stmt_match_at_none pre s :
  match_at STMT_RE (Cursor (rev pre) s) = None <->
  forall w post, s = w ++ post -> ~ open_dataset_stmt pre w.
Proof.
  split.
  - intros H w post -> M.
    assert (E : match_at STMT_RE (Cursor (rev pre) (w ++ post))
                = Some (Cursor (rev (pre ++ w)) post))
      by (apply stmt_match_at; eauto).
    congruence.
  - intros H. destruct (match_at STMT_RE (Cursor (rev pre) s)) as [e|] eqn:E;
      [|reflexivity].
    apply stmt_match_at in E as (w & post & -> & M & _).
    exfalso. eapply H; eauto.
Qed.

Lemma app_split_longer {A} (pre post pre' rest : list A) :
  pre ++ post = pre' ++ rest -> (length pre <= length pre')%nat ->
  exists p, pre' = pre ++ p /\ post = p ++ rest.
Proof.
  revert pre'. induction pre as [|a pre IH]; intros pre' E L; simpl in *.
  - exists pre'. auto.
  - destruct pre' as [|b pre']; simpl in *; [lia|].
    injection E as -> E. destruct (IH pre' E) as (p & -> & ->); [lia|].
    exists p. auto.
Qed.

Lemma span_at_unique text i e1 e2 :
  span_at text i e1 -> span_at text i e2 -> e1 = e2.
Proof.
  intros (pre1 & w1 & post1 & E1 & -> & -> & H1)
         (pre2 & w2 & post2 & E2 & Hi & -> & H2).
  assert (L : length pre1 = length pre2) by lia.
  rewrite E1 in E2.
  destruct (app_split_longer _ _ _ _ E2) as (p & -> & E); [lia|].
  rewrite length_app in L. destruct p; [|simpl in L; lia].
  rewrite app_nil_r in *. simpl in E.
  destruct (stmt_unique _ _ _ _ _ H1 H2 E) as [-> _]. reflexivity.
Qed.

(** ** The iteration *)

Lemma cursor_rev (b s : list ascii) : Cursor b s = Cursor (rev (rev b)) s.
Proof. rewrite rev_involutive. reflexivity. Qed.

Lemma search_stmt_none text c :
  positioned text c ->
  search_from STMT_RE (before c) (after c) = None ->
  forall i e, offset c <= i -> ~ span_at text i e.
Proof.
  unfold positioned, offset. intros Ht H i e Hi (pre & w & post & E & -> & _ & M).
  rewrite Ht in E.
  destruct (app_split_longer _ _ _ _ E) as (p & -> & Ea);
    [rewrite length_rev; lia|].
  pose proof (search_from_none _ _ _ H p (w ++ post) Ea) as N.
  replace (rev p ++ before c) with (rev (rev (before c) ++ p)) in N
    by (rewrite rev_app_distr, rev_involutive; reflexivity).
  rewrite stmt_match_at_none in N. eapply N; eauto.
Qed.

Lemma search_stmt_some text c s e :
  positioned text c ->
  search_from STMT_RE (before c) (after c) = Some (s, e) ->
  exists pre w post,
    text = pre ++ w ++ post /\
    offset c <= Z.of_nat (length pre) /\
    s = Cursor (rev pre) (w ++ post) /\
    e = Cursor (rev (pre ++ w)) post /\
    open_dataset_stmt pre w /\
    (forall j e', offset c <= j < Z.of_nat (length pre) -> ~ span_at text j e').
Proof.
  unfold positioned, offset. intros Ht H.
  apply search_from_some in H as (p1 & q1 & Ea & -> & Hm & Hleft).
  assert (Hrev : rev p1 ++ before c = rev (rev (before c) ++ p1))
    by (rewrite rev_app_distr, rev_involutive; reflexivity).
  rewrite Hrev in Hm. apply stmt_match_at in Hm as (w & post & -> & M & ->).
  exists (rev (before c) ++ p1), w, post.
  rewrite Hrev. repeat split; auto.
  - rewrite Ht, Ea, <- app_assoc. reflexivity.
  - rewrite length_app, length_rev. lia.
  - intros j e' Hj (pre' & w' & post' & E & -> & _ & M').
    rewrite length_app, length_rev in Hj.
    rewrite Ht, Ea in E.
    destruct (app_split_longer _ _ _ _ E) as (p & -> & E2);
      [rewrite length_rev; lia|].
    rewrite length_app, length_rev in Hj.
    symmetry in E2.
    destruct (app_split_longer _ _ _ _ E2) as (p2 & -> & E3); [lia|].
    assert (Hne : p2 <> []) by (intros ->; rewrite length_app in Hj; simpl in Hj; lia).
    pose proof (Hleft p p2 (p2 ++ w ++ post) eq_refl Hne eq_refl) as N.
    replace (rev p ++ before c) with (rev (rev (before c) ++ p)) in N
      by (rewrite rev_app_distr, rev_involutive; reflexivity).
    rewrite stmt_match_at_none in N.
    apply (N w' post'); [symmetry; exact E3 | exact M'].
Qed.

Lemma finditer_fuel_spans : forall fuel text c,
  positioned text c -> (length (after c) < fuel)%nat ->
  spans_from text (offset c) (map span_of (finditer_fuel fuel STMT_RE text c)).
Proof.
  induction fuel as [|fuel IH]; intros text c Ht Hf; [lia|]. simpl.
  destruct (search_from STMT_RE (before c) (after c)) as [[s e]|] eqn:E.
  - destruct (search_stmt_some _ _ _ _ Ht E)
      as (pre & w & post & Etext & Hpos & -> & -> & M & Hleft).
    simpl. unfold span_of at 1. simpl. unfold offset at 2 3. simpl.
    rewrite !length_rev. apply spans_next.
    + exact Hpos.
    + exists pre, w, post. rewrite length_app. auto.
    + exact Hleft.
    + replace (Z.of_nat (length (pre ++ w)))
        with (offset (Cursor (rev (pre ++ w)) post))
        by (unfold offset; simpl; rewrite length_rev; reflexivity).
      apply IH.
      * unfold positioned. simpl. rewrite rev_involutive, <- app_assoc. exact Etext.
      * simpl. pose proof (stmt_nonempty _ _ M) as Hw.
        unfold positioned in Ht. rewrite Ht in Etext.
        apply (f_equal (@length ascii)) in Etext.
        rewrite !length_app, length_rev in Etext.
        unfold offset in Hpos. lia.
  - simpl. apply spans_done. eapply search_stmt_none; eauto.
Qed.

Lemma spans_from_unique text : forall pos l1 l2,
  spans_from text pos l1 -> spans_from text pos l2 -> l1 = l2.
Proof.
  intros pos l1 l2 H1. revert l2.
  induction H1 as [pos Hno|pos i e rest Hi Hs Hleft Hrest IH]; intros l2 H2.
  - inversion H2 as [|? i e rest Hi Hs]; subst; [reflexivity|].
    exfalso. eapply Hno; eauto.
  - inversion H2 as [? Hno|? i' e' rest' Hi' Hs' Hleft' Hrest']; subst.
    + exfalso. eapply Hno; eauto.
    + assert (i = i').
      { destruct (Z.lt_trichotomy i i') as [L|[L|L]]; [|exact L|].
        - exfalso. eapply (Hleft' i); eauto; lia.
        - exfalso. eapply (Hleft i'); eauto; lia. }
      subst i'. assert (e = e') by (eapply span_at_unique; eauto). subst e'.
      f_equal. apply IH. exact Hrest'.
Qed.

Lemma finditer_spans text :
  spans_from text 0 (map span_of (finditer STMT_RE text)).
Proof.
  apply (finditer_fuel_spans (S (length text)) text (start_of text)).
  - reflexivity.
  - simpl. lia.
Qed.

(** More fuel changes nothing. *)
Lemma finditer_fuel_enough : forall f1 f2 text c,
  positioned text c ->
  (length (after c) < f1)%nat -> (length (after c) < f2)%nat ->
  finditer_fuel f1 STMT_RE text c = finditer_fuel f2 STMT_RE text c.
Proof.
  induction f1 as [|f1 IH]; intros [|f2] text c Ht H1 H2; try lia. simpl.
  destruct (search_from STMT_RE (before c) (after c)) as [[s e]|] eqn:E;
    [|reflexivity].
  destruct (search_stmt_some _ _ _ _ Ht E)
    as (pre & w & post & Etext & Hpos & -> & -> & M & _).
  f_equal.
  assert (L : (length post < length (after c))%nat).
  { pose proof (stmt_nonempty _ _ M) as Hw.
    unfold positioned in Ht. rewrite Ht in Etext.
    apply (f_equal (@length ascii)) in Etext.
    rewrite !length_app, length_rev in Etext.
    unfold offset in Hpos. lia. }
  apply IH; simpl; try lia.
  unfold positioned. simpl. rewrite rev_involutive, <- app_assoc. exact Etext.
Qed.

(* ------------------------------------------------------------------ *)
(** * Slices, counts and escapes *)

Lemma adjust_index_in_range len i : 0 <= i <= len -> adjust_index len i = i.
Proof.
  intros H. unfold adjust_index.
  destruct (Z.ltb_spec i 0); lia.
Qed.

Lemma py_slice_substring (t : list ascii) (a b : Z) :
  0 <= a <= Z.of_nat (length t) -> 0 <= b <= Z.of_nat (length t) ->
  py_slice t a b = substring t a b.
Proof.
  intros Ha Hb. unfold py_slice, substring.
  rewrite !adjust_index_in_range by assumption.
  f_equal. lia.
Qed.

Lemma substring_mid (pre w post : list ascii) :
  substring (pre ++ w ++ post) (Z.of_nat (length pre))
            (Z.of_nat (length pre + length w)) = w.
Proof.
  unfold substring. rewrite !Nat2Z.id.
  rewrite skipn_app, skipn_all, Nat.sub_diag. simpl.
  replace (length pre + length w - length pre)%nat with (length w + 0)%nat by lia.
  rewrite firstn_app_2. simpl. apply app_nil_r.
Qed.

Lemma py_slice_mid (pre w post : list ascii) :
  py_slice (pre ++ w ++ post) (Z.of_nat (length pre))
           (Z.of_nat (length pre + length w)) = w.
Proof.
  rewrite py_slice_substring; [apply substring_mid| |];
    rewrite !length_app; lia.
Qed.

Lemma py_replace_escape (l : list ascii) :
  py_replace newline backslash_n l = escape_newlines l.
Proof.
  unfold py_replace. induction l as [|x l IH]; [reflexivity|].
  simpl. rewrite IH. destruct (Ascii.eqb x newline); reflexivity.
Qed.

Lemma escape_no_newline (l : list ascii) : ~ In newline (escape_newlines l).
Proof.
  induction l as [|x l IH]; simpl; [tauto|].
  destruct (Ascii.eqb x newline) eqn:E; simpl.
  - intros [H|[H|H]]; [discriminate H|discriminate H|tauto].
  - intros [H|H]; [|tauto]. subst x. rewrite Ascii.eqb_refl in E. discriminate.
Qed.

Lemma escape_length (l : list ascii) :
  length (escape_newlines l) = (length l + count_occ ascii_dec l newline)%nat.
Proof.
  induction l as [|x l IH]; [reflexivity|]. simpl.
  destruct (Ascii.eqb_spec x newline) as [->|N].
  - destruct (ascii_dec newline newline); [|contradiction]. simpl. lia.
  - destruct (ascii_dec x newline); [contradiction|]. simpl. lia.
Qed.

Lemma count_occ_le_length (l : list ascii) (x : ascii) :
  (count_occ ascii_dec l x <= length l)%nat.
Proof.
  induction l as [|y l IH]; simpl; [lia|]. destruct (ascii_dec y x); lia.
Qed.

Lemma adjust_index_zero len : 0 <= len -> adjust_index len 0 = 0.
Proof. intros H. apply adjust_index_in_range. lia. Qed.

Lemma line_of_offset_spec (text : list ascii) (off : Z) :
  0 <= off -> line_of_offset text off = newlines_before text off + 1.
Proof.
  intros H. unfold line_of_offset, py_count, newlines_before, py_slice.
  rewrite adjust_index_zero by lia. simpl (skipn _ _). rewrite Z.sub_0_r.
  unfold adjust_index. destruct (Z.ltb_spec off 0); [lia|].
  destruct (Z.le_ge_cases off (Z.of_nat (length text))).
  - rewrite Z.min_l by lia. reflexivity.
  - rewrite Z.min_r by lia. rewrite Nat2Z.id.
    rewrite !firstn_all2 by lia. reflexivity.
Qed.

Lemma newlines_before_mono (text : list ascii) (a b : Z) :
  a <= b -> newlines_before text a <= newlines_before text b.
Proof.
  intros H. unfold newlines_before.
  assert (L : (Z.to_nat a <= Z.to_nat b)%nat) by lia.
  generalize dependent (Z.to_nat b). generalize (Z.to_nat a). clear.
  intros n m L. apply inj_le. revert n m L.
  induction text as [|x t IH]; intros [|n] [|m] L; simpl; try lia.
  assert (L' : (n <= m)%nat) by lia. specialize (IH n m L').
  destruct (ascii_dec x newline); lia.
Qed.

(* ------------------------------------------------------------------ *)
(** * The matches [finditer] reports *)

Lemma finditer_fuel_string r text : forall fuel c,
  Forall (fun m => m_string m = text) (finditer_fuel fuel r text c).
Proof.
  induction fuel as [|fuel IH]; intros c; simpl; [constructor|].
  destruct (search_from r (before c) (after c)) as [[s e]|]; constructor; auto.
Qed.

Lemma spans_from_all text : forall pos l,
  spans_from text pos l ->
  Forall (fun p => pos <= fst p /\ span_at text (fst p) (snd p)) l.
Proof.
  intros pos l H. induction H as [|pos i e rest Hi Hs _ _ IH]; constructor.
  - simpl. auto.
  - eapply Forall_impl; [|exact IH]. intros [j e'] [Hj Hs']. simpl in *.
    split; [|exact Hs'].
    destruct Hs as (pre & w & post & _ & -> & -> & _). lia.
Qed.

Lemma span_at_bounds text i e :
  span_at text i e -> 0 <= i < e /\ e <= Z.of_nat (length text).
Proof.
  intros (pre & w & post & -> & -> & -> & M).
  pose proof (stmt_nonempty _ _ M). rewrite !length_app. lia.
Qed.

Lemma spans_from_sorted text : forall pos l,
  spans_from text pos l -> StronglySorted Z.lt (map fst l).
Proof.
  intros pos l H. induction H as [|pos i e rest Hi Hs _ Hrest IH]; simpl; constructor.
  - exact IH.
  - apply spans_from_all in Hrest. apply span_at_bounds in Hs.
    rewrite Forall_map. eapply Forall_impl; [|exact Hrest].
    simpl. intros p [Hp _]. lia.
Qed.

Lemma spans_from_disjoint text : forall ms pos,
  spans_from text pos (map span_of ms) ->
  StronglySorted (fun a b => m_end a <= m_start b) ms.
Proof.
  induction ms as [|m ms IH]; intros pos H; [constructor|].
  simpl in H. inversion H as [|? i e rest Hi Hs Hleft Hrest]; subst.
  constructor; [eapply IH; exact Hrest|].
  apply spans_from_all in Hrest. rewrite Forall_map in Hrest.
  eapply Forall_impl; [|exact Hrest]. simpl. tauto.
Qed.

Lemma finditer_statements text :
  Forall (statement_match text) (finditer STMT_RE text).
Proof.
  pose proof (finditer_spans text) as Hs. apply spans_from_all in Hs.
  rewrite Forall_map in Hs.
  pose proof (finditer_fuel_string STMT_RE text (S (length text)) (start_of text)) as Ht.
  fold (finditer STMT_RE text) in Ht.
  rewrite Forall_forall in *. intros m Hm.
  specialize (Hs m Hm). specialize (Ht m Hm). simpl in Hs.
  destruct Hs as [_ (pre & w & post & E & Hi & He & M)].
  split; [exact Ht|]. exists pre, post.
  assert (G : group0 m = w).
  { unfold group0. rewrite Ht, Hi, He, E. apply py_slice_mid. }
  rewrite G. auto.
Qed.

Lemma statement_match_span text m :
  statement_match text m -> span_at text (m_start m) (m_end m).
Proof.
  intros [_ (pre & post & E & Hs & He & M)].
  exists pre, (group0 m), post. auto.
Qed.

Lemma finditer_starts_sorted text :
  StronglySorted Z.lt (map m_start (finditer STMT_RE text)).
Proof.
  pose proof (spans_from_sorted _ _ _ (finditer_spans text)) as H.
  rewrite map_map in H. exact H.
Qed.

(* ------------------------------------------------------------------ *)
(** * The scan loop *)

Lemma scan_step_app unit src findings m :
  scan_step unit src findings m = findings ++ scan_step unit src [] m.
Proof.
  unfold scan_step.
  destruct (negb (has_mode (group0 m))); [reflexivity|].
  destruct (is_text_mode (group0 m) && negb (has_encoding (group0 m)));
    [reflexivity | symmetry; apply app_nil_r].
Qed.

Lemma scan_fold unit src ms : forall acc,
  fold_left (scan_step unit src) ms acc
  = acc ++ flat_map (scan_step unit src []) ms.
Proof.
  induction ms as [|m ms IH]; intros acc; simpl.
  - symmetry. apply app_nil_r.
  - rewrite IH, scan_step_app, <- app_assoc. reflexivity.
Qed.

Lemma scan_findings_flat unit :
  scan_findings unit
  = flat_map (scan_step unit (src_of unit) []) (finditer STMT_RE (src_of unit)).
Proof. unfold scan_findings. apply scan_fold. Qed.

Lemma in_scan_findings unit f :
  In f (scan_findings unit) ->
  exists m, In m (finditer STMT_RE (src_of unit)) /\
            In f (scan_step unit (src_of unit) [] m).
Proof. rewrite scan_findings_flat, in_flat_map. auto. Qed.

Lemma in_scan_step unit src m f :
  In f (scan_step unit src [] m) ->
  f = no_mode_finding unit src m \/ f = text_no_encoding_finding unit src m.
Proof.
  unfold scan_step.
  destruct (negb (has_mode (group0 m))); [intros [<-|[]]; auto|].
  destruct (is_text_mode (group0 m) && negb (has_encoding (group0 m)));
    [intros [<-|[]]; auto | intros []].
Qed.

Lemma text_mode_has_mode stmt : spec_is_text_mode stmt -> spec_has_mode stmt.
Proof.
  intros (pre & w1 & ws1 & w2 & ws2 & w3 & post
          & E & Hb & H1 & H2 & (k & Hk & H3) & H4 & H5 & H6).
  exists pre, w1, ws1, w2, ws2, w3, post.
  do 4 (split; [assumption|]). split; [|auto].
  exists k. split; [|exact H3]. simpl in *. tauto.
Qed.

Lemma not_true_false (b : bool) (P : Prop) : (b = true <-> P) -> ~ P -> b = false.
Proof. intros H N. destruct b; [exfalso; apply N, H; reflexivity | reflexivity]. Qed.

(** No statement in the text, no match, and conversely. *)
Lemma no_span_no_match text :
  (forall i e, ~ span_at text i e) <-> finditer STMT_RE text = [].
Proof.
  split.
  - intros H. assert (S0 : spans_from text 0 []) by (constructor; auto).
    pose proof (spans_from_unique _ _ _ _ S0 (finditer_spans text)) as E.
    destruct (finditer STMT_RE text); [reflexivity | discriminate].
  - intros E i e Hs. pose proof (finditer_spans text) as S0. rewrite E in S0.
    inversion S0 as [? Hno|]; subst. apply (Hno i e); [|exact Hs].
    apply span_at_bounds in Hs. lia.
Qed.

Lemma no_span_in_empty i e : ~ span_at [] i e.
Proof.
  intros (pre & w & post & E & _ & _ & M). apply stmt_nonempty in M.
  destruct pre; [destruct w; [simpl in M; lia | discriminate] | discriminate].
Qed.

(* ------------------------------------------------------------------ *)
(** * The rule engine *)

(** C1.  [scan_unit] returns what the loop emits span by span, and for
    one span the loop applies the two checks in order.  A statement
    without the phrase IN, white space, TEXT or BINARY, white space,
    MODE (tokens in any letter case) gets exactly one OpenDatasetNoMode
    warning and the second check is not run.  Otherwise a statement
    with the phrase IN TEXT MODE but without the token ENCODING followed
    by white space and something that is not white space gets exactly
    one OpenDatasetTextNoEncoding info.  Any other statement gets
    nothing. *)
Theorem scan_unit_two_step_policy (unit : Unit.t) :
  let src := src_of unit in
  Unit.rule111_findings (scan_unit unit)
  = Some (flat_map (scan_step unit src []) (finditer STMT_RE src)) /\
  forall (m : Match) (findings : list Finding.t),
    let stmt := group0 m in
    (~ spec_has_mode stmt ->
     exists f,
       scan_step unit src findings m = findings ++ [f] /\
       Finding.issue_type f = "OpenDatasetNoMode"%string /\
       Finding.severity f = "warning"%string /\
       Finding.message f = "OPEN DATASET without MODE or ENCODING."%string) /\
    (spec_is_text_mode stmt -> ~ spec_has_encoding stmt ->
     exists f,
       scan_step unit src findings m = findings ++ [f] /\
       Finding.issue_type f = "OpenDatasetTextNoEncoding"%string /\
       Finding.severity f = "info"%string /\
       Finding.message f
       = "OPEN DATASET in TEXT MODE without explicit ENCODING."%string) /\
    (spec_has_mode stmt ->
     ~ (spec_is_text_mode stmt /\ ~ spec_has_encoding stmt) ->
     scan_step unit src findings m = findings).
Proof.
  intros src. split.
  - simpl. rewrite scan_findings_flat. reflexivity.
  - intros m findings stmt. unfold scan_step. fold stmt. repeat split.
    + intros N. rewrite (not_true_false _ _ (has_mode_spec stmt) N). simpl.
      exists (no_mode_finding unit src m). repeat split.
    + intros T N. apply text_mode_has_mode in T as M.
      apply has_mode_spec in M. apply is_text_mode_spec in T.
      rewrite M, T, (not_true_false _ _ (has_encoding_spec stmt) N). simpl.
      exists (text_no_encoding_finding unit src m). repeat split.
    + intros M N. apply has_mode_spec in M. rewrite M. simpl.
      destruct (is_text_mode stmt) eqn:T; [|reflexivity].
      destruct (has_encoding stmt) eqn:E; [reflexivity|].
      exfalso. apply N. split.
      * apply is_text_mode_spec. exact T.
      * intros H. apply has_encoding_spec in H. congruence.
Qed.

(** C2.  The spans the loop analyses are exactly the statement spans of
    the text: each begins at an occurrence of the tokens OPEN DATASET
    (any letter case, white space of any kind between them, line breaks
    included) and ends with the first full stop after it; they are
    found left to right, the leftmost first, each search starting where
    the previous span ended, so no two overlap; an occurrence with no
    full stop after it is no span.  The text of each match is the
    substring between its two offsets. *)
Theorem statement_spans_exact (text : list ascii) :
  (forall l, spans_from text 0 l <-> l = map span_of (finditer STMT_RE text)) /\
  Forall (statement_match text) (finditer STMT_RE text) /\
  Forall (fun m => group0 m = substring text (m_start m) (m_end m))
         (finditer STMT_RE text) /\
  StronglySorted (fun a b => m_end a <= m_start b) (finditer STMT_RE text).
Proof.
  split; [|split; [|split]].
  - intros l. split.
    + intros H. eapply spans_from_unique; [exact H | apply finditer_spans].
    + intros ->. apply finditer_spans.
  - apply finditer_statements.
  - eapply Forall_impl; [|apply finditer_statements].
    intros m [Hs (pre & post & E & Hi & He & _)].
    unfold group0 at 1. rewrite Hs. apply py_slice_substring.
    + rewrite Hi, E, !length_app. lia.
    + rewrite He, E, !length_app. lia.
  - eapply spans_from_disjoint. apply finditer_spans.
Qed.

Lemma span_at_occurrence text i e : span_at text i e -> open_dataset_then_dot text.
Proof.
  intros (pre & w & post & -> & _ & _ & o & ws & d & body & -> & _ & Ho & Hw & Hd & _).
  exists pre, o, ws, d, body, post. repeat rewrite <- app_assoc. auto.
Qed.

(** C7.  A unit whose code is absent or empty, or whose text holds no
    OPEN DATASET followed by a full stop, gets the empty list of
    findings; the scan is a total function, so there is no error to
    raise.  The text may lack the two keywords altogether, or lack
    them as tokens: in both cases it has no statement span. *)
Theorem no_statement_no_finding (unit : Unit.t) :
  Unit.code unit = None \/ Unit.code unit = Some EmptyString \/
  ~ open_dataset_then_dot (src_of unit) \/
  (forall i e, ~ span_at (src_of unit) i e) ->
  scan_findings unit = [] /\
  scan_unit unit = Unit.dump_with unit [].
Proof.
  intros H.
  assert (N : forall i e, ~ span_at (src_of unit) i e).
  { destruct H as [H|[H|[H|H]]]; [| | |exact H].
    - unfold src_of, code_or_empty. rewrite H. apply no_span_in_empty.
    - unfold src_of, code_or_empty. rewrite H. apply no_span_in_empty.
    - intros i e Hs. apply H. eapply span_at_occurrence. exact Hs. }
  apply no_span_no_match in N.
  assert (E : scan_findings unit = [])
    by (rewrite scan_findings_flat, N; reflexivity).
  split; [exact E|]. unfold scan_unit. rewrite E. reflexivity.
Qed.

Lemma scan_unit_two_step_policy_witness :
  let unit := sample_unit (Some three_statements) in
  let src := src_of unit in
  (exists f,
     scan_step unit src [] (stmt_of "OPEN DATASET lv_a FOR OUTPUT.") = [] ++ [f] /\
     Finding.issue_type f = "OpenDatasetNoMode"%string /\
     Finding.severity f = "warning"%string /\
     Finding.message f = "OPEN DATASET without MODE or ENCODING."%string) /\
  (exists f,
     scan_step unit src [] (stmt_of "open dataset lv_b for input in text mode.")
     = [] ++ [f] /\
     Finding.issue_type f = "OpenDatasetTextNoEncoding"%string /\
     Finding.severity f = "info"%string /\
     Finding.message f
     = "OPEN DATASET in TEXT MODE without explicit ENCODING."%string) /\
  scan_step unit src [] (stmt_of "Open Dataset lv_c FOR INPUT IN BINARY MODE.") = [].
Proof.
  intros unit src.
  pose proof (scan_unit_two_step_policy unit) as [_ H].
  split; [|split].
  - apply (H (stmt_of "OPEN DATASET lv_a FOR OUTPUT.") []).
    rewrite <- has_mode_spec. vm_compute. discriminate.
  - apply (H (stmt_of "open dataset lv_b for input in text mode.") []).
    + apply is_text_mode_spec. vm_compute. reflexivity.
    + rewrite <- has_encoding_spec. vm_compute. discriminate.
  - apply (H (stmt_of "Open Dataset lv_c FOR INPUT IN BINARY MODE.") []).
    + apply has_mode_spec. vm_compute. reflexivity.
    + intros [T _]. apply is_text_mode_spec in T. vm_compute in T. discriminate.
Defined.

Lemma no_statement_no_finding_witness :
  (forall i e, ~ span_at (src_of (sample_unit (Some unterminated))) i e) /\
  scan_findings (sample_unit (Some unterminated)) = [] /\
  scan_findings (sample_unit None) = [] /\
  scan_findings (sample_unit (Some EmptyString)) = [].
Proof.
  assert (N : forall i e, ~ span_at (src_of (sample_unit (Some unterminated))) i e)
    by (apply no_span_no_match; vm_compute; reflexivity).
  split; [exact N|]. split; [|split].
  - apply (no_statement_no_finding (sample_unit (Some unterminated))). auto.
  - apply (no_statement_no_finding (sample_unit None)). left. reflexivity.
  - apply (no_statement_no_finding (sample_unit (Some EmptyString))).
    right. left. reflexivity.
Defined.

Lemma finditer_statement text m :
  In m (finditer STMT_RE text) -> statement_match text m.
Proof.
  pose proof (finditer_statements text) as F. rewrite Forall_forall in F. auto.
Qed.

Lemma scan_step_emitted unit m f :
  In m (finditer STMT_RE (src_of unit)) ->
  In f (scan_step unit (src_of unit) [] m) ->
  In f (scan_findings unit).
Proof. intros Hm Hf. rewrite scan_findings_flat, in_flat_map. eauto. Qed.

Lemma statement_match_bounds text m :
  statement_match text m ->
  0 <= m_start m < m_end m /\ m_end m <= Z.of_nat (length text).
Proof. intros H. apply span_at_bounds. apply statement_match_span. exact H. Qed.

Lemma snippet_of_finding unit m f :
  f = no_mode_finding unit (src_of unit) m \/
  f = text_no_encoding_finding unit (src_of unit) m ->
  list_ascii_of_string (Finding.snippet f)
  = snippet_at (src_of unit) (m_start m) (m_end m).
Proof.
  intros [->| ->]; simpl; apply list_ascii_of_string_of_list_ascii.
Qed.

Lemma snippet_at_window text s e :
  0 <= s <= e -> e <= Z.of_nat (length text) ->
  snippet_at text s e
  = escape_newlines
      (substring text (clamp 0 (Z.of_nat (length text)) (s - 60))
                      (clamp 0 (Z.of_nat (length text)) (e + 60))).
Proof.
  intros Hs He. unfold snippet_at. rewrite py_replace_escape. f_equal.
  unfold clamp.
  replace (Z.max 0 (Z.min (Z.of_nat (length text)) (s - 60)))
    with (Z.max 0 (s - 60)) by lia.
  replace (Z.max 0 (Z.min (Z.of_nat (length text)) (e + 60)))
    with (Z.min (Z.of_nat (length text)) (e + 60)) by lia.
  apply py_slice_substring; lia.
Qed.

Lemma substring_length text a b :
  Z.of_nat (length (substring text a b)) <= Z.max 0 (b - a).
Proof.
  unfold substring. rewrite length_firstn. lia.
Qed.

(** C3, as the code has it.  The snippet of the finding emitted for a
    span is the escaped copy of a window of the source that holds the
    statement and at most 120 further characters (60 on each side);
    escaping adds one character for each newline of the window; the
    snippet holds no newline. *)
Theorem snippet_is_bounded (unit : Unit.t) (m : Match) (f : Finding.t) :
  In m (finditer STMT_RE (src_of unit)) ->
  In f (scan_step unit (src_of unit) [] m) ->
  In f (scan_findings unit) /\
  exists window,
    list_ascii_of_string (Finding.snippet f) = escape_newlines window /\
    Z.of_nat (length window) <= Z.of_nat (length (group0 m)) + 120 /\
    length (list_ascii_of_string (Finding.snippet f))
    = (length window + count_occ ascii_dec window newline)%nat /\
    ~ In newline (list_ascii_of_string (Finding.snippet f)).
Proof.
  intros Hm Hf. split; [eapply scan_step_emitted; eauto|].
  pose proof (finditer_statement _ _ Hm) as Hs.
  pose proof (statement_match_bounds _ _ Hs) as [B1 B2].
  set (text := src_of unit) in *.
  exists (substring text (clamp 0 (Z.of_nat (length text)) (m_start m - 60))
                         (clamp 0 (Z.of_nat (length text)) (m_end m + 60))).
  rewrite (snippet_of_finding _ _ _ (in_scan_step _ _ _ _ Hf)). fold text.
  rewrite snippet_at_window by lia.
  split; [reflexivity|]. split; [|split].
  - destruct Hs as [_ (pre & post & _ & Hi & He & _)].
    etransitivity; [apply substring_length|]. unfold clamp. lia.
  - apply escape_length.
  - apply escape_no_newline.
Qed.

Lemma snippet_is_bounded_witness :
  let unit := sample_unit (Some long_line) in
  let m := MkMatch (src_of unit) 68 100 in
  let f := no_mode_finding unit (src_of unit) m in
  In m (finditer STMT_RE (src_of unit)) /\
  In f (scan_step unit (src_of unit) [] m) /\
  In f (scan_findings unit) /\
  exists window,
    list_ascii_of_string (Finding.snippet f) = escape_newlines window /\
    Z.of_nat (length window) <= Z.of_nat (length (group0 m)) + 120 /\
    length (list_ascii_of_string (Finding.snippet f))
    = (length window + count_occ ascii_dec window newline)%nat /\
    ~ In newline (list_ascii_of_string (Finding.snippet f)).
Proof.
  intros unit m f.
  assert (Hm : In m (finditer STMT_RE (src_of unit)))
    by (vm_compute; left; reflexivity).
  assert (Hf : In f (scan_step unit (src_of unit) [] m))
    by (vm_compute; left; reflexivity).
  split; [exact Hm|]. split; [exact Hf|].
  exact (snippet_is_bounded unit m f Hm Hf).
Defined.

Lemma escape_backslashes (w : list ascii) :
  (count_occ ascii_dec w newline
   <= count_occ ascii_dec (escape_newlines w) "\"%char)%nat.
Proof.
  induction w as [|x w IH]; simpl; [lia|].
  destruct (Ascii.eqb_spec x newline) as [->|N].
  - destruct (ascii_dec newline newline); [|contradiction]. simpl. lia.
  - destruct (ascii_dec x newline); [contradiction|]. simpl.
    destruct (ascii_dec x "\"%char); lia.
Qed.

(** C3 as the specification words it fails: a statement of 32
    characters in the middle of a line, with more than 60 characters on
    each side and neither a newline nor a backslash in sight, gives a
    snippet of 152 characters, none of which comes from escaping, so
    the snippet is the copy of 152 characters of the source. *)
Lemma snippet_exceeds_120 :
  ~ (forall f, In f (scan_findings (sample_unit (Some long_line))) ->
       exists window,
         list_ascii_of_string (Finding.snippet f) = escape_newlines window /\
         (length window <= 120)%nat).
Proof.
  intros H.
  set (unit := sample_unit (Some long_line)) in *.
  set (f := no_mode_finding unit (src_of unit) (MkMatch (src_of unit) 68 100)).
  destruct (H f) as (w & E & L); [vm_compute; left; reflexivity|].
  assert (L152 : length (list_ascii_of_string (Finding.snippet f)) = 152%nat)
    by (vm_compute; reflexivity).
  assert (B0 : count_occ ascii_dec (list_ascii_of_string (Finding.snippet f))
                         "\"%char = 0%nat)
    by (vm_compute; reflexivity).
  pose proof (escape_length w) as EL. pose proof (escape_backslashes w) as EB.
  rewrite <- E in EL, EB. lia.
Qed.

(** C4.  The snippet of the finding emitted for the span from [s] to
    [e] is the substring of the text from [s - 60] to [e + 60], both
    bounds clamped to the text, with every newline written as a
    backslash and the letter n. *)
Theorem snippet_is_clamped_window (unit : Unit.t) (m : Match) (f : Finding.t) :
  In m (finditer STMT_RE (src_of unit)) ->
  In f (scan_step unit (src_of unit) [] m) ->
  let t := src_of unit in
  let len := Z.of_nat (length t) in
  In f (scan_findings unit) /\
  list_ascii_of_string (Finding.snippet f)
  = escape_newlines
      (substring t (clamp 0 len (m_start m - 60)) (clamp 0 len (m_end m + 60))).
Proof.
  intros Hm Hf t len. split; [eapply scan_step_emitted; eauto|].
  pose proof (statement_match_bounds _ _ (finditer_statement _ _ Hm)) as [B1 B2].
  rewrite (snippet_of_finding _ _ _ (in_scan_step _ _ _ _ Hf)).
  subst t len. apply snippet_at_window; lia.
Qed.

Lemma snippet_is_clamped_window_witness :
  let unit := sample_unit (Some three_statements) in
  let m := MkMatch (src_of unit) 30 71 in
  let f := text_no_encoding_finding unit (src_of unit) m in
  In m (finditer STMT_RE (src_of unit)) /\
  In f (scan_step unit (src_of unit) [] m) /\
  In f (scan_findings unit) /\
  list_ascii_of_string (Finding.snippet f)
  = escape_newlines (substring (src_of unit) (clamp 0 116 (30 - 60))
                               (clamp 0 116 (71 + 60))).
Proof.
  intros unit m f.
  assert (Hm : In m (finditer STMT_RE (src_of unit)))
    by (vm_compute; right; left; reflexivity).
  assert (Hf : In f (scan_step unit (src_of unit) [] m))
    by (vm_compute; left; reflexivity).
  split; [exact Hm|]. split; [exact Hf|].
  exact (snippet_is_clamped_window unit m f Hm Hf).
Defined.

Lemma line_of_finding unit src m f :
  In f (scan_step unit src [] m) -> Finding.line f = line_of_offset src (m_start m).
Proof. intros H. apply in_scan_step in H as [->| ->]; reflexivity. Qed.

Lemma sorted_lines unit text : forall ms,
  Forall (fun m => 0 <= m_start m) ms ->
  StronglySorted Z.lt (map m_start ms) ->
  exists sel,
    Forall2 (fun f m => In m ms /\ In f (scan_step unit text [] m))
            (flat_map (scan_step unit text []) ms) sel /\
    StronglySorted Z.lt (map m_start sel) /\
    Forall (fun f => exists m, In m ms /\ Finding.line f
                                 = newlines_before text (m_start m) + 1)
           (flat_map (scan_step unit text []) ms) /\
    StronglySorted Z.le (map Finding.line (flat_map (scan_step unit text []) ms)).
Proof.
  induction ms as [|m ms IH]; intros Hpos Hsort; simpl.
  - exists []. repeat split; constructor.
  - inversion Hpos as [|? ? Hm Hpos']; subst.
    inversion Hsort as [|? ? Hsort' Hlt]; subst.
    destruct (IH Hpos' Hsort') as (sel & F2 & Ssel & Fl & Sl).
    assert (F2' : Forall2 (fun f m0 => In m0 (m :: ms)
                                      /\ In f (scan_step unit text [] m0))
                          (flat_map (scan_step unit text []) ms) sel).
    { eapply Forall2_impl; [|exact F2]. simpl. tauto. }
    assert (Fl' : Forall (fun f => exists m0, In m0 (m :: ms) /\
                    Finding.line f = newlines_before text (m_start m0) + 1)
                  (flat_map (scan_step unit text []) ms)).
    { eapply Forall_impl; [|exact Fl]. intros f (m0 & H0 & E). exists m0.
      simpl. auto. }
    assert (Hsel : Forall (fun m0 => m_start m < m_start m0) sel).
    { clear - F2 Hlt. rewrite Forall_map in Hlt. rewrite Forall_forall in Hlt.
      induction F2 as [|f m0 fs sel [Hin _] _ IH']; constructor; auto. }
    assert (Hge : Forall (fun f => newlines_before text (m_start m) + 1
                                   <= Finding.line f)
                         (flat_map (scan_step unit text []) ms)).
    { rewrite Forall_map in Hlt. rewrite Forall_forall in Hlt.
      eapply Forall_impl; [|exact Fl]. intros f (m0 & H0 & ->).
      apply Hlt in H0.
      pose proof (newlines_before_mono text (m_start m) (m_start m0)). lia. }
    destruct (scan_step unit text [] m) as [|f [|f' rest]] eqn:E.
    + exists sel. simpl. auto.
    + assert (Hf : In f (scan_step unit text [] m)) by (rewrite E; left; reflexivity).
      pose proof (line_of_finding _ _ _ _ Hf) as L.
      rewrite line_of_offset_spec in L by exact Hm.
      exists (m :: sel). simpl. repeat split.
      * constructor; [simpl; auto | exact F2'].
      * constructor; [exact Ssel | rewrite Forall_map; exact Hsel].
      * constructor; [exists m; simpl; auto | exact Fl'].
      * constructor; [exact Sl|]. rewrite Forall_map, L. exact Hge.
    + exfalso. unfold scan_step in E.
      destruct (negb (has_mode (group0 m))); [discriminate|].
      destruct (is_text_mode (group0 m) && negb (has_encoding (group0 m)));
        discriminate.
Qed.

(** C5.  The line of the finding emitted for a span is one more than
    the number of newlines before the start of the span; the findings of
    a unit follow their spans, whose starts ascend, and their lines
    never descend. *)
Theorem finding_lines_ascend (unit : Unit.t) :
  let src := src_of unit in
  (forall m f,
     In m (finditer STMT_RE src) -> In f (scan_step unit src [] m) ->
     In f (scan_findings unit) /\
     Finding.line f = newlines_before src (m_start m) + 1) /\
  (exists spans,
     Forall2 (fun f m => In m (finditer STMT_RE src) /\
                         In f (scan_step unit src [] m))
             (scan_findings unit) spans /\
     StronglySorted Z.lt (map m_start spans)) /\
  StronglySorted Z.le (map Finding.line (scan_findings unit)).
Proof.
  intros src.
  assert (Hpos : Forall (fun m => 0 <= m_start m) (finditer STMT_RE src)).
  { eapply Forall_impl; [|apply finditer_statements].
    intros m H. apply statement_match_bounds in H. lia. }
  split; [|].
  - intros m f Hm Hf. split; [eapply scan_step_emitted; eauto|].
    rewrite (line_of_finding _ _ _ _ Hf). apply line_of_offset_spec.
    rewrite Forall_forall in Hpos. auto.
  - destruct (sorted_lines unit src _ Hpos (finditer_starts_sorted src))
      as (sel & F2 & Ssel & _ & Sl).
    rewrite scan_findings_flat. fold src. split; [|exact Sl].
    exists sel. auto.
Qed.

(** C6.  The identity fields of a finding are those of its unit. *)
Theorem identity_fields_copied (unit : Unit.t) (f : Finding.t) :
  In f (scan_findings unit) ->
  Finding.pgm_name f = Unit.pgm_name unit /\
  Finding.inc_name f = Unit.inc_name unit /\
  Finding.type f = Unit.type unit /\
  Finding.name f = Unit.name unit /\
  Finding.start_line f = Unit.start_line unit /\
  Finding.end_line f = Unit.end_line unit.
Proof.
  intros H. apply in_scan_findings in H as (m & _ & H).
  apply in_scan_step in H as [->| ->]; repeat split.
Qed.

Lemma identity_fields_copied_witness :
  let unit := sample_unit (Some three_statements) in
  let f := text_no_encoding_finding unit (src_of unit) (MkMatch (src_of unit) 30 71) in
  In f (scan_findings unit) /\
  Finding.pgm_name f = "ZREPORT"%string /\
  Finding.inc_name f = "ZINCLUDE"%string /\
  Finding.type f = "FORM"%string /\
  Finding.name f = Some "WRITE_FILE"%string /\
  Finding.start_line f = Some 10 /\
  Finding.end_line f = Some 42.
Proof.
  intros unit f.
  assert (H : In f (scan_findings unit)) by (vm_compute; right; left; reflexivity).
  split; [exact H|]. exact (identity_fields_copied unit f H).
Defined.

(** C10.  A finding is of one of the two kinds, and its severity goes
    with its kind. *)
Theorem issue_type_fixes_severity (unit : Unit.t) (f : Finding.t) :
  In f (scan_findings unit) ->
  (Finding.issue_type f = "OpenDatasetNoMode"%string \/
   Finding.issue_type f = "OpenDatasetTextNoEncoding"%string) /\
  (Finding.severity f = "warning"%string <->
   Finding.issue_type f = "OpenDatasetNoMode"%string) /\
  (Finding.severity f = "info"%string <->
   Finding.issue_type f = "OpenDatasetTextNoEncoding"%string).
Proof.
  intros H. apply in_scan_findings in H as (m & _ & H).
  apply in_scan_step in H as [->| ->]; simpl;
    (split; [auto|]); split; split; intros E; (reflexivity || discriminate E).
Qed.

Lemma issue_type_fixes_severity_witness :
  let unit := sample_unit (Some three_statements) in
  let f := no_mode_finding unit (src_of unit) (MkMatch (src_of unit) 0 29) in
  In f (scan_findings unit) /\
  (Finding.issue_type f = "OpenDatasetNoMode"%string \/
   Finding.issue_type f = "OpenDatasetTextNoEncoding"%string) /\
  (Finding.severity f = "warning"%string <->
   Finding.issue_type f = "OpenDatasetNoMode"%string) /\
  (Finding.severity f = "info"%string <->
   Finding.issue_type f = "OpenDatasetTextNoEncoding"%string).
Proof.
  intros unit f.
  assert (H : In f (scan_findings unit)) by (vm_compute; left; reflexivity).
  split; [exact H|]. exact (issue_type_fixes_severity unit f H).
Defined.

(* ------------------------------------------------------------------ *)
(** * The endpoint *)

Lemma scan_rule111_fold units : forall results,
  fold_left
    (fun results u =>
       let res := scan_unit u in
       if truthy (Unit.rule111_findings res) then results ++ [res]
       else results)
    units results
  = results ++ map scan_unit (filter has_findings units).
Proof.
  induction units as [|u units IH]; intros results; simpl.
  - symmetry. apply app_nil_r.
  - rewrite IH. unfold has_findings.
    destruct (scan_findings u); simpl; [reflexivity|].
    rewrite <- app_assoc. reflexivity.
Qed.

(** C8.  The response is the scan of each unit that has findings, in
    the order of the batch, each carrying its findings; a unit without
    findings is left out. *)
Theorem remediate_array_keeps_findings (units : list Unit.t) :
  scan_rule111 units = map scan_unit (filter has_findings units) /\
  Forall (fun res => exists u,
            In u units /\ res = scan_unit u /\
            Unit.rule111_findings res = Some (scan_findings u) /\
            scan_findings u <> [])
         (scan_rule111 units) /\
  (forall u, In u units ->
     (In (scan_unit u) (scan_rule111 units) <-> scan_findings u <> [])).
Proof.
  assert (E : scan_rule111 units = map scan_unit (filter has_findings units))
    by apply (scan_rule111_fold units []).
  split; [exact E|]. rewrite E. split.
  - rewrite Forall_map, Forall_forall. intros u Hu.
    apply filter_In in Hu as [Hu Hf]. exists u. repeat split; auto.
    unfold has_findings in Hf. intros N. rewrite N in Hf. discriminate.
  - intros u Hu. rewrite in_map_iff. split.
    + intros (u' & Eu & Hu'). apply filter_In in Hu' as [_ Hf].
      unfold has_findings in Hf.
      assert (Some (scan_findings u') = Some (scan_findings u))
        by (apply (f_equal Unit.rule111_findings) in Eu; exact Eu).
      intros N. rewrite N in H. injection H as H. rewrite H in Hf. discriminate.
    + intros N. exists u. split; [reflexivity|]. apply filter_In.
      split; [exact Hu|]. unfold has_findings.
      destruct (scan_findings u); [contradiction|reflexivity].
Qed.

Lemma remediate_array_keeps_findings_witness :
  let dirty := sample_unit (Some three_statements) in
  let clean := sample_unit (Some unterminated) in
  In clean [clean; dirty; clean] /\
  scan_rule111 [clean; dirty; clean] = [scan_unit dirty] /\
  (In (scan_unit clean) (scan_rule111 [clean; dirty; clean])
   <-> scan_findings clean <> []).
Proof.
  intros dirty clean.
  pose proof (remediate_array_keeps_findings [clean; dirty; clean]) as (E & _ & H).
  split; [left; reflexivity|]. split.
  - rewrite E. vm_compute. reflexivity.
  - apply H. left. reflexivity.
Defined.

(* ------------------------------------------------------------------ *)
(** * Letter case *)

Lemma case_variant_refl t : case_variant t t.
Proof. induction t; constructor; auto. Qed.

Lemma case_variant_length t t' : case_variant t t' -> length t = length t'.
Proof. apply Forall2_length. Qed.

Lemma case_variant_firstn n : forall t t',
  case_variant t t' -> case_variant (firstn n t) (firstn n t').
Proof.
  induction n as [|n IH]; intros t t' H; simpl; [constructor|].
  destruct H; constructor; auto. apply IH. assumption.
Qed.

Lemma case_variant_skipn n : forall t t',
  case_variant t t' -> case_variant (skipn n t) (skipn n t').
Proof.
  induction n as [|n IH]; intros t t' H; simpl; [exact H|].
  destruct H; [constructor|]. apply IH. assumption.
Qed.

Lemma case_variant_slice t t' a b :
  case_variant t t' -> case_variant (py_slice t a b) (py_slice t' a b).
Proof.
  intros H. unfold py_slice. rewrite <- (case_variant_length _ _ H).
  apply case_variant_firstn, case_variant_skipn, H.
Qed.

Lemma case_variant_newlines t t' :
  case_variant t t' ->
  count_occ ascii_dec t newline = count_occ ascii_dec t' newline.
Proof.
  induction 1 as [|x y t t' E _ IH]; [reflexivity|]. simpl. rewrite IH.
  apply same_case_newline in E.
  destruct (ascii_dec x newline) as [->|Nx], (ascii_dec y newline) as [->|Ny];
    try reflexivity; exfalso.
  - rewrite Ascii.eqb_refl in E. symmetry in E. apply Ascii.eqb_eq in E. auto.
  - rewrite Ascii.eqb_refl in E. apply Ascii.eqb_eq in E. auto.
Qed.

Lemma case_variant_word_at t t' : case_variant t t' -> word_at t = word_at t'.
Proof.
  intros [|x y ? ? E _]; [reflexivity|]. simpl. symmetry.
  apply same_case_word. symmetry. exact E.
Qed.

Lemma cursor_rel_offset c c' : cursor_rel c c' -> offset c = offset c'.
Proof. intros [H _]. unfold offset. rewrite (case_variant_length _ _ H). reflexivity. Qed.

Section ExecCase.
Context {X Y : Type} (R : X -> Y -> Prop).
Implicit Types (k : cursor -> option X) (h : cursor -> option Y).

Lemma option_rel_orelse (a1 a2 : option X) (b1 b2 : option Y) :
  option_rel R a1 b1 -> option_rel R a2 b2 ->
  option_rel R (match a1 with Some v => Some v | None => a2 end)
               (match b1 with Some v => Some v | None => b2 end).
Proof. destruct a1, b1; simpl; tauto. Qed.

Lemma exec_star_case p k h :
  (forall x y, lower x = lower y -> p x = p y) -> cont_rel R k h ->
  forall s s', case_variant s s' ->
  forall b b', case_variant b b' ->
    option_rel R (exec_star p k b s) (exec_star p h b' s').
Proof.
  intros Hp Hk s s' Hs.
  induction Hs as [|x y s s' E Hs IH]; intros b b' Hb; simpl.
  - apply Hk. split; [exact Hb | constructor].
  - assert (Hhere : option_rel R (k (Cursor b (x :: s))) (h (Cursor b' (y :: s'))))
      by (apply Hk; split; [exact Hb | constructor; assumption]).
    rewrite <- (Hp x y E). destruct (p x); [|exact Hhere].
    apply option_rel_orelse; [|exact Hhere].
    apply IH. constructor; assumption.
Qed.

Lemma exec_case r : case_blind r ->
  forall c c' k h, cursor_rel c c' -> cont_rel R k h ->
    option_rel R (exec r c k) (exec r c' h).
Proof.
  induction r as [|a|p| |r1 IH1 r2 IH2|r1 IH1 r2 IH2|p];
    intros Hr [b s] [b' s'] k h [Hb Hs] Hk; simpl in *.
  - apply Hk. split; assumption.
  - destruct Hs as [|x y s s' E Hs]; [exact I|].
    unfold ci_eqb. rewrite E. destruct (Ascii.eqb (lower y) (lower a)); [|exact I].
    apply Hk. split; [constructor|]; assumption.
  - destruct Hs as [|x y s s' E Hs]; [exact I|].
    rewrite <- (Hr x y E). destruct (p x); [|exact I].
    apply Hk. split; [constructor|]; assumption.
  - unfold at_boundary. simpl.
    rewrite (case_variant_word_at _ _ Hb), (case_variant_word_at _ _ Hs).
    destruct (xorb _ _); [|exact I]. apply Hk. split; assumption.
  - destruct Hr as [Hr1 Hr2]. apply IH1; [exact Hr1 | split; assumption|].
    intros d d' Hd. apply IH2; assumption.
  - destruct Hr as [Hr1 Hr2]. apply option_rel_orelse.
    + apply IH1; [exact Hr1 | split; assumption | exact Hk].
    + apply IH2; [exact Hr2 | split; assumption | exact Hk].
  - apply exec_star_case; assumption.
Qed.
End ExecCase.

Lemma match_at_case r c c' :
  case_blind r -> cursor_rel c c' ->
  option_rel cursor_rel (match_at r c) (match_at r c').
Proof.
  intros Hr Hc. unfold match_at. apply exec_case; [exact Hr | exact Hc|].
  intros d d' Hd. exact Hd.
Qed.

Lemma search_from_case r : case_blind r ->
  forall s s', case_variant s s' ->
  forall b b', case_variant b b' ->
    option_rel (fun p p' => cursor_rel (fst p) (fst p') /\ cursor_rel (snd p) (snd p'))
               (search_from r b s) (search_from r b' s').
Proof.
  intros Hr s s' Hs. induction Hs as [|x y s s' E Hs IH]; intros b b' Hb; simpl.
  - pose proof (match_at_case r (Cursor b []) (Cursor b' []) Hr) as M.
    destruct (match_at r (Cursor b [])), (match_at r (Cursor b' []));
      simpl in *; try (apply M; split; [assumption|constructor]).
    split; [split; [assumption|constructor]|].
    apply M. split; [assumption|constructor].
  - assert (Hc : cursor_rel (Cursor b (x :: s)) (Cursor b' (y :: s')))
      by (split; [assumption | constructor; assumption]).
    pose proof (match_at_case r _ _ Hr Hc) as M.
    destruct (match_at r (Cursor b (x :: s))), (match_at r (Cursor b' (y :: s')));
      simpl in *; try contradiction.
    + split; assumption.
    + apply IH. constructor; assumption.
Qed.

Lemma found_case r s s' :
  case_blind r -> case_variant s s' -> found r s = found r s'.
Proof.
  intros Hr Hs. unfold found, search.
  pose proof (search_from_case r Hr s s' Hs [] [] (Forall2_nil _)) as H.
  destruct (search_from r [] s), (search_from r [] s'); simpl in H;
    (reflexivity || contradiction).
Qed.

Lemma finditer_fuel_case r text text' :
  case_blind r -> case_variant text text' ->
  forall fuel c c', cursor_rel c c' ->
    Forall2 match_rel (finditer_fuel fuel r text c) (finditer_fuel fuel r text' c').
Proof.
  intros Hr Ht. induction fuel as [|fuel IH]; intros c c' [Hb Hs]; simpl;
    [constructor|].
  pose proof (search_from_case r Hr _ _ Hs _ _ Hb) as H.
  destruct (search_from r (before c) (after c)) as [[s e]|],
           (search_from r (before c') (after c')) as [[s' e']|];
    simpl in H; try contradiction; [|constructor].
  destruct H as [H1 H2]. constructor.
  - repeat split; simpl; auto using cursor_rel_offset.
  - apply IH. exact H2.
Qed.

Lemma finditer_case r text text' :
  case_blind r -> case_variant text text' ->
  Forall2 match_rel (finditer r text) (finditer r text').
Proof.
  intros Hr Ht. unfold finditer. rewrite <- (case_variant_length _ _ Ht).
  apply finditer_fuel_case; auto. split; [constructor | exact Ht].
Qed.

Lemma kw_case_blind k : case_blind (kw k).
Proof. unfold kw. induction (list_ascii_of_string k); simpl; auto. Qed.

Lemma space_case_blind x y : lower x = lower y -> is_space x = is_space y.
Proof. intros E. symmetry. apply same_case_space. symmetry. exact E. Qed.

Lemma not_space_case_blind x y : lower x = lower y -> not_space x = not_space y.
Proof. intros E. unfold not_space. f_equal. apply space_case_blind, E. Qed.

Lemma not_dot_case_blind x y : lower x = lower y -> not_dot x = not_dot y.
Proof.
  intros E. unfold not_dot. f_equal. symmetry. apply same_case_dot.
  symmetry. exact E.
Qed.

Lemma patterns_case_blind :
  case_blind STMT_RE /\ case_blind MODE_RE /\
  case_blind TEXT_MODE_RE /\ case_blind ENCODING_RE.
Proof.
  repeat split;
    try apply kw_case_blind;
    try exact space_case_blind;
    try exact not_space_case_blind;
    try exact not_dot_case_blind.
Qed.

Lemma group0_case m m' : match_rel m m' -> case_variant (group0 m) (group0 m').
Proof.
  intros (Hs & He & Ht). unfold group0. rewrite Hs, He.
  apply case_variant_slice, Ht.
Qed.

Lemma line_of_offset_case t t' off :
  case_variant t t' -> line_of_offset t off = line_of_offset t' off.
Proof.
  intros H. unfold line_of_offset, py_count.
  rewrite (case_variant_newlines _ _ (case_variant_slice _ _ 0 off H)).
  reflexivity.
Qed.

Lemma scan_step_case unit unit' src src' m m' :
  case_variant src src' -> match_rel m m' ->
  Forall2 same_verdict (scan_step unit src [] m) (scan_step unit' src' [] m').
Proof.
  intros Hsrc Hm. pose proof (group0_case _ _ Hm) as Hg.
  destruct patterns_case_blind as (_ & B1 & B2 & B3).
  unfold scan_step, has_mode, is_text_mode, has_encoding.
  rewrite <- (found_case _ _ _ B1 Hg), <- (found_case _ _ _ B2 Hg),
          <- (found_case _ _ _ B3 Hg).
  destruct Hm as (Hs & _ & _).
  destruct (negb (found MODE_RE (group0 m))).
  - repeat constructor. simpl. rewrite Hs. apply line_of_offset_case, Hsrc.
  - destruct (found TEXT_MODE_RE (group0 m) && negb (found ENCODING_RE (group0 m))).
    + repeat constructor. simpl. rewrite Hs. apply line_of_offset_case, Hsrc.
    + constructor.
Qed.

Lemma Forall2_flat_map {A B C D} (R : A -> B -> Prop) (S : C -> D -> Prop)
      (f : A -> list C) (g : B -> list D) l l' :
  Forall2 R l l' -> (forall x y, R x y -> Forall2 S (f x) (g y)) ->
  Forall2 S (flat_map f l) (flat_map g l').
Proof.
  intros H Hfg. induction H; simpl; [constructor|].
  apply Forall2_app; auto.
Qed.

(** C9.  Two units whose texts differ in letter case only (in the
    keywords or anywhere else) have their statements at the same
    offsets, and finding by finding the same issue type, severity and
    line. *)
Theorem scan_ignores_letter_case (unit unit' : Unit.t) :
  case_variant (src_of unit) (src_of unit') ->
  map span_of (finditer STMT_RE (src_of unit))
  = map span_of (finditer STMT_RE (src_of unit')) /\
  Forall2 same_verdict (scan_findings unit) (scan_findings unit').
Proof.
  intros H. destruct patterns_case_blind as (B0 & _).
  pose proof (finditer_case STMT_RE _ _ B0 H) as F. split.
  - induction F as [|m m' ? ? (Hs & He & _) _ IH]; simpl; [reflexivity|].
    rewrite IH. unfold span_of. rewrite Hs, He. reflexivity.
  - rewrite !scan_findings_flat.
    eapply Forall2_flat_map; [exact F|].
    intros m m' Hm. apply scan_step_case; assumption.
Qed.

Lemma scan_ignores_letter_case_witness :
  let upper := sample_unit (Some "OPEN DATASET lv_f FOR INPUT IN TEXT MODE."%string) in
  let mixed := sample_unit (Some "open DataSet lv_f for input In Text mode."%string) in
  case_variant (src_of upper) (src_of mixed) /\
  map span_of (finditer STMT_RE (src_of upper))
  = map span_of (finditer STMT_RE (src_of mixed)) /\
  Forall2 same_verdict (scan_findings upper) (scan_findings mixed).
Proof.
  intros upper mixed.
  assert (H : case_variant (src_of upper) (src_of mixed))
    by (vm_compute; repeat constructor).
  split; [exact H|]. exact (scan_ignores_letter_case upper mixed H).
Defined.

(* ------------------------------------------------------------------ *)
(** * The scan at work *)

Example scan_three_statements :
  map (fun f => (Finding.issue_type f, Finding.severity f, Finding.line f))
      (scan_findings (sample_unit (Some three_statements)))
  = [("OpenDatasetNoMode"%string, "warning"%string, 1);
     ("OpenDatasetTextNoEncoding"%string, "info"%string, 2)].
Proof. vm_compute. reflexivity. Qed.

Example spans_of_three_statements :
  map span_of (finditer STMT_RE (list_ascii_of_string three_statements))
  = [(0, 29); (30, 71); (72, 115)].
Proof. vm_compute. reflexivity. Qed.

Example text_mode_with_encoding_is_clean :
  scan_findings
    (sample_unit (Some "OPEN DATASET lv_f FOR INPUT IN TEXT MODE ENCODING UTF-8."%string))
  = [].
Proof. vm_compute. reflexivity. Qed.

Example glued_keywords_are_no_tokens :
  has_mode (list_ascii_of_string "OPEN DATASET lv_f IN TEXT MODEL.") = false /\
  has_mode (list_ascii_of_string "OPEN DATASET lv_f BEGIN TEXT MODE.") = false /\
  finditer STMT_RE (list_ascii_of_string "REOPEN DATASET lv_f. OPEN DATASETS.") = [].
Proof. vm_compute. auto. Qed.

Example full_stop_in_a_literal_ends_the_statement :
  map group0 (finditer STMT_RE (list_ascii_of_string
                "OPEN DATASET 'out.txt' FOR OUTPUT IN BINARY MODE."))
  = [list_ascii_of_string "OPEN DATASET 'out."].
Proof. vm_compute. reflexivity. Qed.

Example snippet_of_long_line :
  map (fun f => String.length (Finding.snippet f))
      (scan_findings (sample_unit (Some long_line)))
  = [152%nat].
Proof. vm_compute. reflexivity. Qed.

(* ------------------------------------------------------------------ *)
(** * The shape of a statement *)

Lemma same_word_length k w : same_word k w -> length w = String.length k.
Proof.
  unfold same_word. intros H. apply Forall2_length in H. rewrite <- H.
  clear. induction k; simpl; auto.
Qed.

Lemma same_word_first k a w :
  same_word (String a k) w -> exists c rest, w = c :: rest /\ lower c = lower a.
Proof. unfold same_word. simpl. inversion 1; subst. eauto. Qed.

(** X1.  A statement that [finditer] reports lies within the text, is
    at least as long as OPEN DATASET and a full stop, starts with the
    letter O in either case, is not glued to a word character before
    it, and holds exactly one full stop, its last character. *)
Theorem statement_shape (text : list ascii) (m : Match) :
  In m (finditer STMT_RE text) ->
  0 <= m_start m /\ m_start m + 13 <= m_end m /\
  m_end m <= Z.of_nat (length text) /\
  Z.of_nat (length (group0 m)) = m_end m - m_start m /\
  (exists pre post,
     text = pre ++ group0 m ++ post /\
     Z.of_nat (length pre) = m_start m /\ word_at (rev pre) = false) /\
  (exists c rest, group0 m = c :: rest /\ lower c = "o"%char) /\
  (exists body, group0 m = body ++ [dot] /\ ~ In dot body) /\
  full_stops (group0 m) = 1%nat.
Proof.
  intros Hm. apply finditer_statement in Hm.
  destruct Hm as [_ (pre & post & E & Hs & He & M)].
  pose proof M as (o & ws & d & body & Eg & Hb & Ho & [Hne Hws] & Hd & _ & Hdot).
  pose proof (same_word_length _ _ Ho) as Lo.
  pose proof (same_word_length _ _ Hd) as Ld. simpl in Lo, Ld.
  assert (Lw : (1 <= length ws)%nat) by (destruct ws; [contradiction | simpl; lia]).
  assert (Lg : (13 <= length (group0 m))%nat)
    by (rewrite Eg, !length_app; simpl; lia).
  split; [lia|]. split; [lia|]. split.
  { rewrite He. apply (f_equal (@length ascii)) in E. rewrite !length_app in E. lia. }
  split; [lia|]. split.
  { exists pre, post. split; [exact E|]. split; [lia | exact Hb]. }
  split.
  { destruct (same_word_first _ _ _ Ho) as (c & rest & -> & Hc).
    exists c, (rest ++ ws ++ d ++ body ++ [dot]). split; [exact Eg | exact Hc]. }
  assert (Eb : group0 m = (o ++ ws ++ d ++ body) ++ [dot])
    by (rewrite Eg; repeat rewrite <- app_assoc; reflexivity).
  split.
  { exists (o ++ ws ++ d ++ body). split; [exact Eb | exact Hdot]. }
  unfold full_stops. rewrite Eb, count_occ_app.
  rewrite (proj1 (count_occ_not_In ascii_dec _ _) Hdot). reflexivity.
Qed.

Lemma statement_shape_witness :
  let text := list_ascii_of_string three_statements in
  let m := MkMatch text 30 71 in
  In m (finditer STMT_RE text) /\
  0 <= m_start m /\ m_start m + 13 <= m_end m /\
  m_end m <= Z.of_nat (length text) /\
  Z.of_nat (length (group0 m)) = m_end m - m_start m /\
  (exists pre post,
     text = pre ++ group0 m ++ post /\
     Z.of_nat (length pre) = m_start m /\ word_at (rev pre) = false) /\
  (exists c rest, group0 m = c :: rest /\ lower c = "o"%char) /\
  (exists body, group0 m = body ++ [dot] /\ ~ In dot body) /\
  full_stops (group0 m) = 1%nat.
Proof.
  intros text m.
  assert (H : In m (finditer STMT_RE text)) by (vm_compute; right; left; reflexivity).
  split; [exact H|]. exact (statement_shape text m H).
Defined.

(* ------------------------------------------------------------------ *)
(** * Counting *)

Lemma count_occ_firstn_le (l : list ascii) (x : ascii) (n : nat) :
  (count_occ ascii_dec (firstn n l) x <= count_occ ascii_dec l x)%nat.
Proof.
  rewrite <- (firstn_skipn n l) at 2. rewrite count_occ_app. lia.
Qed.

Lemma count_occ_skipn_le (l : list ascii) (x : ascii) (n : nat) :
  (count_occ ascii_dec (skipn n l) x <= count_occ ascii_dec l x)%nat.
Proof.
  rewrite <- (firstn_skipn n l) at 2. rewrite count_occ_app. lia.
Qed.

Lemma count_occ_skipn_mono (l : list ascii) (x : ascii) (n k : nat) :
  (n <= k)%nat ->
  (count_occ ascii_dec (skipn k l) x <= count_occ ascii_dec (skipn n l) x)%nat.
Proof.
  intros H. replace k with ((k - n) + n)%nat by lia.
  rewrite <- skipn_skipn. apply count_occ_skipn_le.
Qed.

Lemma skipn_pre_app (pre rest : list ascii) :
  skipn (length pre) (pre ++ rest) = rest.
Proof. rewrite skipn_app, skipn_all, Nat.sub_diag. reflexivity. Qed.

Lemma spans_from_count text : forall pos l,
  spans_from text pos l -> 0 <= pos ->
  (length l <= full_stops (skipn (Z.to_nat pos) text))%nat.
Proof.
  intros pos l H. induction H as [|pos i e rest Hi Hs _ _ IH]; intros Hpos;
    simpl; [lia|].
  pose proof (span_at_bounds _ _ _ Hs) as [B1 B2].
  specialize (IH ltac:(lia)).
  destruct Hs as (pre & stmt & post & -> & -> & -> & M).
  apply stmt_ends_with_dot in M as (x & -> & _).
  rewrite Nat2Z.id in IH.
  replace (pre ++ (x ++ [dot]) ++ post) with ((pre ++ x ++ [dot]) ++ post) in *
    by (repeat rewrite <- app_assoc; reflexivity).
  replace (length pre + length (x ++ [dot]))%nat with (length (pre ++ x ++ [dot])) in IH
    by (rewrite !length_app; reflexivity).
  rewrite skipn_pre_app in IH.
  assert (Hc : (S (full_stops post)
                <= full_stops (skipn (length pre) ((pre ++ x ++ [dot]) ++ post)))%nat).
  { rewrite <- !app_assoc, skipn_pre_app. unfold full_stops.
    rewrite !count_occ_app. simpl.
    destruct (ascii_dec dot dot); [lia | contradiction]. }
  pose proof (count_occ_skipn_mono ((pre ++ x ++ [dot]) ++ post) dot
                (Z.to_nat pos) (length pre) ltac:(lia)) as Hm.
  unfold full_stops in *. lia.
Qed.

Lemma scan_step_at_most_one unit src m :
  (length (scan_step unit src [] m) <= 1)%nat.
Proof.
  unfold scan_step. destruct (negb (has_mode (group0 m))); [simpl; lia|].
  destruct (is_text_mode (group0 m) && negb (has_encoding (group0 m))); simpl; lia.
Qed.

Lemma flat_map_at_most_one {A B} (f : A -> list B) (l : list A) :
  (forall x, (length (f x) <= 1)%nat) ->
  (length (flat_map f l) <= length l)%nat.
Proof.
  intros H. induction l as [|x l IH]; simpl; [lia|].
  rewrite length_app. specialize (H x). lia.
Qed.

(** X2.  A unit has at most one finding for each statement, and at
    most one statement for each full stop of its text; a text without
    a full stop has no finding. *)
Theorem findings_bounded_by_full_stops (unit : Unit.t) :
  (length (scan_findings unit) <= length (finditer STMT_RE (src_of unit)))%nat /\
  (length (finditer STMT_RE (src_of unit)) <= full_stops (src_of unit))%nat /\
  (~ In dot (src_of unit) -> scan_findings unit = []).
Proof.
  assert (A : (length (scan_findings unit)
               <= length (finditer STMT_RE (src_of unit)))%nat).
  { rewrite scan_findings_flat. apply flat_map_at_most_one.
    intros m. apply scan_step_at_most_one. }
  assert (B : (length (finditer STMT_RE (src_of unit))
               <= full_stops (src_of unit))%nat).
  { pose proof (spans_from_count _ _ _ (finditer_spans (src_of unit))
                                 ltac:(lia)) as H.
    rewrite length_map in H. exact H. }
  split; [exact A|]. split; [exact B|].
  intros N. apply (count_occ_not_In ascii_dec) in N.
  unfold full_stops in B. rewrite N in B.
  destruct (scan_findings unit); [reflexivity | simpl in A; lia].
Qed.

(* ------------------------------------------------------------------ *)
(** * Lines *)

Lemma py_count_bounds ch text lo hi :
  0 <= py_count ch text lo hi <= Z.of_nat (count_occ ascii_dec text ch).
Proof.
  unfold py_count, py_slice. split; [lia|]. apply inj_le.
  etransitivity; [apply count_occ_firstn_le | apply count_occ_skipn_le].
Qed.

(** X3.  The line of a finding is a line of the text: at least 1 and
    at most one more than the number of newlines of the text. *)
Theorem finding_line_in_range (unit : Unit.t) (f : Finding.t) :
  In f (scan_findings unit) ->
  1 <= Finding.line f <= Z.of_nat (newlines (src_of unit)) + 1.
Proof.
  intros H. apply in_scan_findings in H as (m & _ & H).
  rewrite (line_of_finding _ _ _ _ H). unfold line_of_offset, newlines.
  pose proof (py_count_bounds newline (src_of unit) 0 (m_start m)). lia.
Qed.

Lemma finding_line_in_range_witness :
  let unit := sample_unit (Some three_statements) in
  let f := text_no_encoding_finding unit (src_of unit) (MkMatch (src_of unit) 30 71) in
  In f (scan_findings unit) /\
  1 <= Finding.line f <= Z.of_nat (newlines (src_of unit)) + 1.
Proof.
  intros unit f.
  assert (H : In f (scan_findings unit)) by (vm_compute; right; left; reflexivity).
  split; [exact H|]. exact (finding_line_in_range unit f H).
Defined.

Lemma line_of_offset_negative (text : list ascii) (off : Z) :
  off < 0 ->
  line_of_offset text off
  = line_of_offset text (Z.max 0 (off + Z.of_nat (length text))).
Proof.
  intros H. unfold line_of_offset, py_count, py_slice. do 3 f_equal.
  f_equal. f_equal. f_equal.
  unfold adjust_index. destruct (Z.ltb_spec off 0); [|lia].
  destruct (Z.ltb_spec (Z.max 0 (off + Z.of_nat (length text))) 0); lia.
Qed.

(** X4.  [line_of_offset] at the edges.  Offset 0 is on line 1; an
    offset at or beyond the end of the text is on the last line; a
    negative offset counts from the end of the text, as a negative
    slice bound does, and one beyond the start is on line 1. *)
Theorem line_of_offset_edges (text : list ascii) (off : Z) :
  let len := Z.of_nat (length text) in
  line_of_offset text 0 = 1 /\
  (len <= off -> line_of_offset text off = Z.of_nat (newlines text) + 1) /\
  (- len <= off < 0 -> line_of_offset text off = line_of_offset text (len + off)) /\
  (off < - len -> line_of_offset text off = 1).
Proof.
  intros len.
  assert (Z0 : line_of_offset text 0 = 1)
    by (rewrite line_of_offset_spec by lia; reflexivity).
  split; [exact Z0|]. split; [|split].
  - intros H. rewrite line_of_offset_spec by lia.
    unfold newlines_before, newlines. rewrite firstn_all2 by lia. reflexivity.
  - intros H. rewrite line_of_offset_negative by lia.
    rewrite Z.max_r by lia. f_equal. lia.
  - intros H. rewrite line_of_offset_negative by lia.
    rewrite Z.max_l by lia. exact Z0.
Qed.

(* ------------------------------------------------------------------ *)
(** * What a snippet shows *)

Lemma escape_app (a b : list ascii) :
  escape_newlines (a ++ b) = escape_newlines a ++ escape_newlines b.
Proof.
  induction a as [|x a IH]; [reflexivity|]. simpl. rewrite IH.
  destruct (Ascii.eqb x newline); reflexivity.
Qed.

Lemma firstn_min_length {A} (n : nat) (l : list A) :
  firstn (Nat.min n (length l)) l = firstn n l.
Proof.
  destruct (Nat.le_ge_cases n (length l)).
  - rewrite Nat.min_l by assumption. reflexivity.
  - rewrite Nat.min_r by assumption. rewrite firstn_all, firstn_all2 by assumption.
    reflexivity.
Qed.

Lemma length_lastn {A} (n : nat) (l : list A) :
  length (lastn n l) = Nat.min n (length l).
Proof. unfold lastn. rewrite length_skipn. lia. Qed.

Lemma window_around (pre stmt post : list ascii) :
  let text := pre ++ stmt ++ post in
  py_slice text
           (Z.max 0 (Z.of_nat (length pre) - 60))
           (Z.min (Z.of_nat (length text))
                  (Z.of_nat (length pre + length stmt) + 60))
  = lastn 60 pre ++ stmt ++ firstn 60 post.
Proof.
  intros text. unfold py_slice.
  assert (L : length text = (length pre + length stmt + length post)%nat)
    by (unfold text; rewrite !length_app; lia).
  rewrite !adjust_index_in_range by lia.
  replace (Z.to_nat (Z.max 0 (Z.of_nat (length pre) - 60)))
    with (length pre - 60)%nat by lia.
  unfold text. rewrite skipn_app.
  replace (length pre - 60 - length pre)%nat with 0%nat by lia. simpl (skipn 0 _).
  fold (lastn 60 pre).
  replace (Z.to_nat (Z.min (Z.of_nat (length (pre ++ stmt ++ post)))
                           (Z.of_nat (length pre + length stmt) + 60)
                     - Z.max 0 (Z.of_nat (length pre) - 60)))
    with (length (lastn 60 pre ++ stmt) + Nat.min 60 (length post))%nat
    by (rewrite length_app, length_lastn; fold text; lia).
  rewrite (app_assoc (lastn 60 pre) stmt post), firstn_app_2.
  rewrite firstn_min_length, <- app_assoc. reflexivity.
Qed.

(** X5.  The snippet of a finding shows the whole statement: it is the
    escaped copy of the last 60 characters before the statement (all of
    them when there are fewer), of the statement itself, and of the
    first 60 characters after it. *)
Theorem snippet_shows_statement (unit : Unit.t) (m : Match) (f : Finding.t) :
  In m (finditer STMT_RE (src_of unit)) ->
  In f (scan_step unit (src_of unit) [] m) ->
  exists pre post,
    src_of unit = pre ++ group0 m ++ post /\
    m_start m = Z.of_nat (length pre) /\
    list_ascii_of_string (Finding.snippet f)
    = escape_newlines (lastn 60 pre) ++ escape_newlines (group0 m)
      ++ escape_newlines (firstn 60 post).
Proof.
  intros Hm Hf.
  destruct (finditer_statement _ _ Hm) as [_ (pre & post & E & Hs & He & _)].
  exists pre, post. split; [exact E|]. split; [exact Hs|].
  rewrite (snippet_of_finding _ _ _ (in_scan_step _ _ _ _ Hf)).
  unfold snippet_at. rewrite py_replace_escape, Hs, He.
  rewrite E at 1 2. rewrite window_around, !escape_app. reflexivity.
Qed.

Lemma snippet_shows_statement_witness :
  let unit := sample_unit (Some long_line) in
  let m := MkMatch (src_of unit) 68 100 in
  let f := no_mode_finding unit (src_of unit) m in
  In m (finditer STMT_RE (src_of unit)) /\
  In f (scan_step unit (src_of unit) [] m) /\
  exists pre post,
    src_of unit = pre ++ group0 m ++ post /\
    m_start m = Z.of_nat (length pre) /\
    list_ascii_of_string (Finding.snippet f)
    = escape_newlines (lastn 60 pre) ++ escape_newlines (group0 m)
      ++ escape_newlines (firstn 60 post).
Proof.
  intros unit m f.
  assert (Hm : In m (finditer STMT_RE (src_of unit)))
    by (vm_compute; left; reflexivity).
  assert (Hf : In f (scan_step unit (src_of unit) [] m))
    by (vm_compute; left; reflexivity).
  split; [exact Hm|]. split; [exact Hf|].
  exact (snippet_shows_statement unit m f Hm Hf).
Defined.

(* ------------------------------------------------------------------ *)
(** * The clauses of a statement *)

Lemma leading_spaces : forall l c x,
  is_space c = true -> c :: l = x ++ [dot] ->
  exists ws t rest,
    c :: l = ws ++ t :: rest /\ whitespace ws /\ is_space t = false.
Proof.
  induction l as [|d l IH]; intros c x Hc E.
  - destruct x as [|y [|z x]]; try discriminate.
    injection E as ->. discriminate Hc.
  - destruct (is_space d) eqn:Hd.
    + destruct x as [|y x]; [destruct l; discriminate|].
      injection E as <- E.
      destruct (IH d x Hd E) as (ws & t & rest & E' & [Hne Hws] & Ht).
      exists (c :: ws), t, rest. rewrite E'.
      split; [reflexivity|]. split; [|exact Ht].
      split; [discriminate | constructor; assumption].
    + exists [c], d, l.
      split; [reflexivity|]. split; [|exact Hd].
      split; [discriminate | constructor; [assumption | constructor]].
Qed.

Lemma suffix_ends_alike (l1 l2 x : list ascii) (d : ascii) :
  l1 ++ l2 = x ++ [d] -> l2 <> [] -> exists y, l2 = y ++ [d].
Proof.
  intros E Hne. destruct (exists_last Hne) as (y & z & ->).
  rewrite app_assoc in E. apply app_inj_tail in E as [_ ->]. eauto.
Qed.

(** X6.  In a statement, the closing full stop can stand for the
    encoding name: [has_encoding] holds as soon as the token ENCODING
    is followed by one white-space character, whatever comes next. *)
Theorem encoding_needs_only_white_space (text : list ascii) (m : Match) :
  In m (finditer STMT_RE text) ->
  (has_encoding (group0 m) = true <->
   exists pre w c post,
     group0 m = pre ++ w ++ c :: post /\
     no_word_before pre /\ same_word "ENCODING" w /\ is_space c = true).
Proof.
  intros Hm. destruct (finditer_statement _ _ Hm) as [_ (p0 & q0 & _ & _ & _ & M)].
  apply stmt_ends_with_dot in M as (x & Ex & _).
  rewrite has_encoding_spec. split.
  - intros (pre & w & ws & tok & post & E & Hb & Hw & [Hne Hws] & _).
    destruct ws as [|c ws]; [contradiction|]. inversion Hws; subst.
    exists pre, w, c, (ws ++ tok ++ post). rewrite E.
    split; [reflexivity|]. auto.
  - intros (pre & w & c & post & E & Hb & Hw & Hc).
    assert (E' : (pre ++ w) ++ c :: post = x ++ [dot])
      by (rewrite <- app_assoc, <- E; exact Ex).
    destruct (suffix_ends_alike _ _ _ _ E') as (y & Ey); [discriminate|].
    destruct (leading_spaces _ _ _ Hc Ey) as (ws & t & rest & El & Hws & Ht).
    exists pre, w, ws, [t], rest. rewrite E, El.
    split; [reflexivity|]. do 3 (split; [assumption|]).
    split; [discriminate | constructor; [assumption | constructor]].
Qed.

Lemma encoding_needs_only_white_space_witness :
  let text := list_ascii_of_string "OPEN DATASET lv_f IN TEXT MODE ENCODING ." in
  let m := MkMatch text 0 41 in
  In m (finditer STMT_RE text) /\
  (has_encoding (group0 m) = true <->
   exists pre w c post,
     group0 m = pre ++ w ++ c :: post /\
     no_word_before pre /\ same_word "ENCODING" w /\ is_space c = true) /\
  has_encoding (group0 m) = true.
Proof.
  intros text m.
  assert (Hm : In m (finditer STMT_RE text)) by (vm_compute; left; reflexivity).
  split; [exact Hm|]. split.
  - exact (encoding_needs_only_white_space text m Hm).
  - vm_compute. reflexivity.
Defined.

(** X7.  The pattern for IN TEXT MODE finds nothing that the pattern
    for IN (TEXT|BINARY) MODE does not find: a statement in text mode
    has a mode, so the first check never hides a text-mode statement
    from the second. *)
Theorem text_mode_implies_mode (stmt : list ascii) :
  is_text_mode stmt = true -> has_mode stmt = true.
Proof.
  intros H. apply has_mode_spec, text_mode_has_mode, is_text_mode_spec, H.
Qed.

Lemma text_mode_implies_mode_witness :
  let stmt := list_ascii_of_string "open dataset lv_b for input in text mode." in
  is_text_mode stmt = true /\ has_mode stmt = true.
Proof.
  intros stmt.
  assert (H : is_text_mode stmt = true) by (vm_compute; reflexivity).
  split; [exact H|]. exact (text_mode_implies_mode stmt H).
Defined.

(* ------------------------------------------------------------------ *)
(** * Batches and objects *)

Lemma scan_rule111_filter units :
  scan_rule111 units = map scan_unit (filter has_findings units).
Proof. apply (scan_rule111_fold units []). Qed.

(** X8.  A batch can be cut anywhere: the response to two batches put
    together is the two responses put together, so no unit's result
    depends on the units around it; and a response is never longer
    than its batch. *)
Theorem batch_composes (a b : list Unit.t) :
  scan_rule111 (a ++ b) = scan_rule111 a ++ scan_rule111 b /\
  (length (scan_rule111 a) <= length a)%nat.
Proof.
  rewrite !scan_rule111_filter. split.
  - rewrite filter_app, map_app. reflexivity.
  - rewrite length_map. apply filter_length_le.
Qed.

(** X9.  The response is empty exactly when no unit of the batch has a
    finding; that is the case when no unit holds a statement. *)
Theorem empty_response (units : list Unit.t) :
  (scan_rule111 units = [] <-> forall u, In u units -> scan_findings u = []) /\
  ((forall u, In u units -> forall i e, ~ span_at (src_of u) i e) ->
   scan_rule111 units = []).
Proof.
  assert (A : scan_rule111 units = []
              <-> forall u, In u units -> scan_findings u = []).
  { rewrite scan_rule111_filter. split.
    - intros E u Hu. destruct (scan_findings u) eqn:F; [reflexivity|].
      assert (Hin : In u (filter has_findings units)).
      { apply filter_In. split; [exact Hu|]. unfold has_findings. rewrite F.
        reflexivity. }
      apply (in_map scan_unit) in Hin. rewrite E in Hin. destruct Hin.
    - intros H. induction units as [|u units IH]; [reflexivity|]. simpl.
      unfold has_findings at 1. rewrite (H u) by (left; reflexivity).
      apply IH. intros u' Hu'. apply H. right. exact Hu'. }
  split; [exact A|]. intros H. apply A. intros u Hu.
  rewrite scan_findings_flat.
  rewrite (proj1 (no_span_no_match (src_of u)) (H u Hu)). reflexivity.
Qed.

(** X10.  A scan passes the fields of the unit through and discards
    the findings the unit arrived with: two units that differ in those
    findings only scan to the same object, and scanning the object a
    scan returned changes nothing. *)
Theorem scan_discards_stale_findings (unit : Unit.t) :
  same_input unit (scan_unit unit) /\
  Unit.rule111_findings (scan_unit unit) = Some (scan_findings unit) /\
  (forall unit', same_input unit unit' -> scan_unit unit' = scan_unit unit) /\
  scan_unit (scan_unit unit) = scan_unit unit.
Proof.
  assert (A : same_input unit (scan_unit unit)) by (repeat split).
  assert (B : forall unit', same_input unit unit' -> scan_unit unit' = scan_unit unit).
  { intros unit' H. destruct unit, unit'. unfold same_input in H. simpl in H.
    destruct H as (-> & -> & -> & -> & -> & -> & ->). reflexivity. }
  split; [exact A|]. split; [reflexivity|]. split; [exact B|].
  apply B. exact A.
Qed.

(** X11.  The message and the suggestion of a finding go with its issue
    type; both suggestions end with the sentence of the first message. *)
Theorem message_and_suggestion_fixed (unit : Unit.t) (f : Finding.t) :
  In f (scan_findings unit) ->
  (Finding.issue_type f = "OpenDatasetNoMode"%string ->
   Finding.message f = "OPEN DATASET without MODE or ENCODING."%string /\
   Finding.suggestion f
   = ("Specify IN TEXT MODE ENCODING UTF-8 or IN BINARY MODE. "
      ++ "OPEN DATASET without MODE or ENCODING.")%string) /\
  (Finding.issue_type f = "OpenDatasetTextNoEncoding"%string ->
   Finding.message f
   = "OPEN DATASET in TEXT MODE without explicit ENCODING."%string /\
   Finding.suggestion f
   = ("Add ENCODING UTF-8 (or the required codepage). "
      ++ "OPEN DATASET without MODE or ENCODING.")%string).
Proof.
  intros H. apply in_scan_findings in H as (m & _ & H).
  apply in_scan_step in H as [->| ->]; simpl; split; intros E;
    (discriminate E || (split; reflexivity)).
Qed.

Lemma message_and_suggestion_fixed_witness :
  let unit := sample_unit (Some three_statements) in
  let f := text_no_encoding_finding unit (src_of unit) (MkMatch (src_of unit) 30 71) in
  In f (scan_findings unit) /\
  Finding.issue_type f = "OpenDatasetTextNoEncoding"%string /\
  Finding.message f
  = "OPEN DATASET in TEXT MODE without explicit ENCODING."%string /\
  Finding.suggestion f
  = ("Add ENCODING UTF-8 (or the required codepage). "
     ++ "OPEN DATASET without MODE or ENCODING.")%string.
Proof.
  intros unit f.
  assert (H : In f (scan_findings unit)) by (vm_compute; right; left; reflexivity).
  split; [exact H|]. split; [reflexivity|].
  exact (proj2 (message_and_suggestion_fixed unit f H) eq_refl).
Defined.

(* ------------------------------------------------------------------ *)
(** * Statements and full stops *)

(** The full stop that ends a statement, by position. *)
Lemma span_at_dots text i e :
  span_at text i e ->
  exists p : nat,
    e = Z.of_nat p + 1 /\ i <= Z.of_nat p /\
    nth_error text p = Some dot /\
    forall k : nat, i <= Z.of_nat k -> (k < p)%nat -> nth_error text k <> Some dot.
Proof.
  intros (pre & w & post & -> & -> & -> & M).
  apply stmt_ends_with_dot in M as (x & -> & Hx).
  exists (length pre + length x)%nat. rewrite !length_app. simpl.
  split; [lia|]. split; [lia|]. split.
  - rewrite nth_error_app2 by lia. rewrite <- app_assoc.
    rewrite nth_error_app2 by lia.
    replace (length pre + length x - length pre - length x)%nat with 0%nat by lia.
    reflexivity.
  - intros k Hk Hlt E. rewrite nth_error_app2 in E by lia.
    rewrite <- app_assoc in E. rewrite nth_error_app1 in E by lia.
    apply nth_error_In in E. contradiction.
Qed.

(** A statement that starts inside another ends with it. *)
Lemma span_at_nested text j e' i e :
  span_at text j e' -> span_at text i e -> j <= i < e' -> e = e'.
Proof.
  intros Hj Hi Hji.
  pose proof (span_at_bounds _ _ _ Hi) as [Bi _].
  apply span_at_dots in Hj as (p & -> & Hjp & Dp & Fp).
  apply span_at_dots in Hi as (q & -> & Hiq & Dq & Fq).
  destruct (Nat.lt_trichotomy q p) as [L|[L|L]].
  - exfalso. apply (Fp q); [lia | exact L | exact Dq].
  - subst q. reflexivity.
  - exfalso. apply (Fq p); [lia | exact L | exact Dp].
Qed.

Lemma spans_from_cover text : forall pos l,
  spans_from text pos l ->
  forall i e, span_at text i e -> pos <= i ->
    exists i0, In (i0, e) l /\ i0 <= i.
Proof.
  intros pos l H.
  induction H as [pos Hno|pos i0 e0 rest Hi0 Hs0 Hleft _ IH]; intros i e Hs Hi.
  - exfalso. eapply Hno; eauto.
  - destruct (Z.lt_trichotomy i i0) as [L|[L|L]].
    + exfalso. apply (Hleft i e); [lia | exact Hs].
    + subst i. rewrite (span_at_unique _ _ _ _ Hs Hs0).
      exists i0. split; [left; reflexivity | lia].
    + destruct (Z.lt_ge_cases i e0) as [In0|Out].
      * rewrite (span_at_nested _ _ _ _ _ Hs0 Hs) by lia.
        exists i0. split; [left; reflexivity | lia].
      * destruct (IH i e Hs Out) as (i1 & H1 & L1).
        exists i1. split; [right; exact H1 | exact L1].
Qed.

(** A successful attempt at a position is a statement of the text. *)
Lemma match_at_span text (n : nat) c i e :
  match_at STMT_RE (Cursor (rev (firstn n text)) (skipn n text)) = Some c ->
  (n <= length text)%nat -> i = Z.of_nat n -> e = offset c ->
  span_at text i e.
Proof.
  intros H Hn -> ->. apply stmt_match_at in H as (w & post & E & M & ->).
  exists (firstn n text), w, post. unfold offset. simpl.
  rewrite length_rev, length_app, length_firstn, Nat.min_l by exact Hn.
  rewrite <- E, firstn_skipn. auto.
Qed.

(** X12.  No terminated OPEN DATASET escapes the scan: a statement
    that starts anywhere in the text is a reported span, or starts
    inside a reported span that ends with the same full stop. *)
Theorem every_statement_is_covered (text : list ascii) (i e : Z) :
  span_at text i e ->
  exists m, In m (finditer STMT_RE text) /\ m_start m <= i /\ m_end m = e.
Proof.
  intros H.
  destruct (spans_from_cover _ _ _ (finditer_spans text) i e H)
    as (i0 & Hin & L); [apply span_at_bounds in H; lia|].
  apply in_map_iff in Hin as (m & Em & Hm). injection Em as <- <-.
  exists m. auto.
Qed.

Lemma every_statement_is_covered_witness :
  let text := list_ascii_of_string "OPEN DATASET lv_a OPEN DATASET lv_b." in
  span_at text 18 36 /\
  exists m, In m (finditer STMT_RE text) /\ m_start m <= 18 /\ m_end m = 36.
Proof.
  intros text.
  assert (H : span_at text 18 36).
  { eapply (match_at_span text 18).
    - vm_compute. reflexivity.
    - vm_compute. lia.
    - reflexivity.
    - vm_compute. reflexivity. }
  split; [exact H|]. exact (every_statement_is_covered text 18 36 H).
Defined.

(* ------------------------------------------------------------------ *)
(** * Text that grows *)

Lemma span_at_extend a b i e : span_at a i e -> span_at (a ++ b) i e.
Proof.
  intros (pre & w & post & -> & -> & -> & M).
  exists pre, w, (post ++ b). repeat rewrite <- app_assoc. auto.
Qed.

Lemma span_at_restrict a b i e :
  span_at (a ++ b) i e -> e <= Z.of_nat (length a) -> span_at a i e.
Proof.
  intros (pre & w & post & E & -> & -> & M) He.
  rewrite app_assoc in E. symmetry in E.
  destruct (app_split_longer _ _ _ _ E) as (p & -> & _);
    [rewrite length_app; lia|].
  exists pre, w, p. rewrite <- app_assoc. auto.
Qed.

Lemma spans_from_exists text pos :
  0 <= pos <= Z.of_nat (length text) -> exists l, spans_from text pos l.
Proof.
  intros H. set (n := Z.to_nat pos).
  set (c := Cursor (rev (firstn n text)) (skipn n text)).
  assert (P : positioned text c)
    by (unfold positioned, c; simpl; rewrite rev_involutive, firstn_skipn;
        reflexivity).
  assert (O : offset c = pos).
  { unfold offset, c. simpl. rewrite length_rev, length_firstn. lia. }
  pose proof (finditer_fuel_spans (S (length (after c))) text c P ltac:(lia)) as S0.
  rewrite O in S0. eauto.
Qed.

Lemma spans_from_append a b : forall pos l,
  spans_from a pos l -> 0 <= pos <= Z.of_nat (length a) ->
  exists l', spans_from (a ++ b) pos (l ++ l').
Proof.
  intros pos l H.
  induction H as [pos Hno|pos i e rest Hi Hs Hleft _ IH]; intros Hpos.
  - apply spans_from_exists. rewrite length_app. lia.
  - pose proof (span_at_bounds _ _ _ Hs) as [B1 B2].
    destruct (IH ltac:(lia)) as (l' & Hl').
    exists l'. simpl. apply spans_next; auto.
    + apply span_at_extend. exact Hs.
    + intros j e' Hj Hsj.
      assert (He' : e' <= e).
      { destruct (Z.lt_ge_cases i e') as [In0|Out]; [|lia].
        rewrite (span_at_nested _ _ _ _ _ Hsj (span_at_extend a b _ _ Hs)) by lia.
        lia. }
      apply (Hleft j e' Hj). apply (span_at_restrict a b); [exact Hsj | lia].
Qed.

Lemma py_slice_prefix (a b : list ascii) (s e : Z) :
  0 <= s <= e -> e <= Z.of_nat (length a) ->
  py_slice (a ++ b) s e = py_slice a s e.
Proof.
  intros Hs He. rewrite !py_slice_substring by (rewrite ?length_app; lia).
  unfold substring. rewrite skipn_app.
  rewrite firstn_app.
  replace (Z.to_nat e - Z.to_nat s - length (skipn (Z.to_nat s) a))%nat with 0%nat
    by (rewrite length_skipn; lia).
  simpl. apply app_nil_r.
Qed.

Lemma line_of_offset_prefix (a b : list ascii) (s : Z) :
  0 <= s <= Z.of_nat (length a) ->
  line_of_offset (a ++ b) s = line_of_offset a s.
Proof.
  intros H. unfold line_of_offset, py_count.
  rewrite py_slice_prefix by lia. reflexivity.
Qed.

Lemma scan_step_prefix unit unit' a b m m' :
  same_span m m' -> m_string m = a -> m_string m' = a ++ b ->
  0 <= m_start m <= m_end m -> m_end m <= Z.of_nat (length a) ->
  Forall2 same_verdict (scan_step unit a [] m) (scan_step unit' (a ++ b) [] m').
Proof.
  intros [Es Ee] Ha Hab B1 B2.
  assert (G : group0 m' = group0 m).
  { unfold group0. rewrite Ha, Hab, <- Es, <- Ee. apply py_slice_prefix; lia. }
  unfold scan_step. rewrite G.
  assert (L : line_of_offset (a ++ b) (m_start m') = line_of_offset a (m_start m))
    by (rewrite <- Es; apply line_of_offset_prefix; lia).
  destruct (negb (has_mode (group0 m))).
  - repeat constructor. simpl. symmetry. exact L.
  - destruct (is_text_mode (group0 m) && negb (has_encoding (group0 m))).
    + repeat constructor. simpl. symmetry. exact L.
    + constructor.
Qed.

Lemma finditer_prefix a b :
  exists kept later,
    finditer STMT_RE (a ++ b) = kept ++ later /\
    Forall2 same_span (finditer STMT_RE a) kept.
Proof.
  destruct (spans_from_append a b 0 _ (finditer_spans a) ltac:(lia)) as (l' & H).
  pose proof (spans_from_unique _ _ _ _ H (finditer_spans (a ++ b))) as E.
  symmetry in E. apply map_eq_app in E as (kept & later & E & Ek & _).
  exists kept, later. split; [exact E|].
  clear - Ek. revert kept Ek.
  induction (finditer STMT_RE a) as [|m ms IH]; intros [|k kept] Ek;
    try discriminate; constructor.
  - injection Ek as E1 E2 _. split; congruence.
  - apply IH. injection Ek as _ _ Ek. exact Ek.
Qed.

(** X13.  Appending text to a unit keeps what was found before: the
    statements of the shorter text are reported again at the same
    offsets, before any new one, and their findings come first, with
    the same issue type, severity and line. *)
Theorem appending_keeps_earlier_findings (unit unit' : Unit.t) (more : list ascii) :
  src_of unit' = src_of unit ++ more ->
  exists kept later,
    finditer STMT_RE (src_of unit') = kept ++ later /\
    Forall2 same_span (finditer STMT_RE (src_of unit)) kept /\
    exists first rest,
      scan_findings unit' = first ++ rest /\
      Forall2 same_verdict (scan_findings unit) first.
Proof.
  intros E. set (a := src_of unit) in *.
  destruct (finditer_prefix a more) as (kept & later & Ef & F2).
  rewrite <- E in Ef. exists kept, later. split; [exact Ef|]. split; [exact F2|].
  exists (flat_map (scan_step unit' (src_of unit') []) kept),
         (flat_map (scan_step unit' (src_of unit') []) later).
  split; [rewrite scan_findings_flat, Ef, flat_map_app; reflexivity|].
  rewrite scan_findings_flat. fold a.
  assert (Hk : Forall (fun m' => m_string m' = a ++ more) kept).
  { pose proof (finditer_fuel_string STMT_RE (src_of unit')
                  (S (length (src_of unit'))) (start_of (src_of unit'))) as H.
    fold (finditer STMT_RE (src_of unit')) in H. rewrite Ef in H.
    apply Forall_app in H as [H _]. rewrite <- E. exact H. }
  pose proof (finditer_statements a) as Ha.
  rewrite E. clear Ef.
  induction F2 as [|m m' ms kept Hmm _ IH]; simpl; [constructor|].
  inversion Ha as [|? ? Hm Ha']; subst. inversion Hk as [|? ? Hm' Hk']; subst.
  apply Forall2_app; [|apply IH; assumption].
  pose proof (statement_match_bounds _ _ Hm) as [B1 B2].
  apply scan_step_prefix; auto; [apply Hm | lia].
Qed.

Lemma appending_keeps_earlier_findings_witness :
  let short := sample_unit (Some "OPEN DATASET lv_a. OPEN DATASET lv_b"%string) in
  let long :=
    sample_unit (Some "OPEN DATASET lv_a. OPEN DATASET lv_b IN TEXT MODE."%string) in
  src_of long = src_of short ++ list_ascii_of_string " IN TEXT MODE." /\
  exists kept later,
    finditer STMT_RE (src_of long) = kept ++ later /\
    Forall2 same_span (finditer STMT_RE (src_of short)) kept /\
    exists first rest,
      scan_findings long = first ++ rest /\
      Forall2 same_verdict (scan_findings short) first.
Proof.
  intros short long.
  assert (E : src_of long = src_of short ++ list_ascii_of_string " IN TEXT MODE.")
    by reflexivity.
  split; [exact E|].
  exact (appending_keeps_earlier_findings short long _ E).
Defined.

(* ------------------------------------------------------------------ *)
(** * Text in pieces *)

Lemma no_word_before_after_dot (x pre : list ascii) :
  no_word_before ((x ++ [dot]) ++ pre) <-> no_word_before pre.
Proof.
  unfold no_word_before. rewrite rev_app_distr.
  destruct (rev pre) as [|c r] eqn:E.
  - simpl. rewrite rev_app_distr. simpl. split; reflexivity.
  - simpl. split; auto.
Qed.

Lemma open_dataset_stmt_context pre pre' w :
  (no_word_before pre <-> no_word_before pre') ->
  open_dataset_stmt pre w -> open_dataset_stmt pre' w.
Proof.
  intros H (o & ws & d & body & E & Hb & Rest).
  exists o, ws, d, body. split; [exact E|]. split; [apply H; exact Hb | exact Rest].
Qed.

Lemma span_at_shift x b i e :
  span_at b i e ->
  span_at ((x ++ [dot]) ++ b) (i + Z.of_nat (length (x ++ [dot])))
          (e + Z.of_nat (length (x ++ [dot]))).
Proof.
  set (a := x ++ [dot]).
  intros (pre & w & post & -> & -> & -> & M).
  exists (a ++ pre), w, post. rewrite <- app_assoc, !length_app.
  split; [reflexivity|]. split; [lia|]. split; [lia|].
  eapply open_dataset_stmt_context; [|exact M].
  symmetry. apply no_word_before_after_dot.
Qed.

Lemma span_at_unshift x b i e :
  0 <= i ->
  span_at ((x ++ [dot]) ++ b) (i + Z.of_nat (length (x ++ [dot])))
          (e + Z.of_nat (length (x ++ [dot]))) ->
  span_at b i e.
Proof.
  set (a := x ++ [dot]).
  intros H0 (pre' & w & post & E & Hi & He & M).
  destruct (app_split_longer _ _ _ _ E) as (pre & -> & ->); [lia|].
  exists pre, w, post. rewrite !length_app in *.
  split; [reflexivity|]. split; [lia|]. split; [lia|].
  eapply open_dataset_stmt_context; [|exact M].
  apply no_word_before_after_dot.
Qed.

(** A statement that starts before a full stop ends there at the latest. *)
Lemma span_in_first x b i e :
  span_at ((x ++ [dot]) ++ b) i e -> i < Z.of_nat (length (x ++ [dot])) ->
  e <= Z.of_nat (length (x ++ [dot])).
Proof.
  intros Hs Hi. pose proof (span_at_bounds _ _ _ Hs) as [B _].
  apply span_at_dots in Hs as (p & -> & Hp & _ & Free).
  rewrite length_app in *. simpl in *.
  destruct (Nat.le_gt_cases p (length x)) as [L|L]; [lia|].
  exfalso. apply (Free (length x)); [lia | exact L|].
  rewrite <- app_assoc, nth_error_app2 by lia.
  rewrite Nat.sub_diag. reflexivity.
Qed.

Lemma spans_from_shift x b : forall pos l,
  spans_from b pos l -> 0 <= pos ->
  spans_from ((x ++ [dot]) ++ b) (pos + Z.of_nat (length (x ++ [dot])))
             (map (shift_span (Z.of_nat (length (x ++ [dot])))) l).
Proof.
  set (a := x ++ [dot]). intros pos l H.
  induction H as [pos Hno|pos i e rest Hi Hs Hleft _ IH]; intros Hpos; simpl.
  - apply spans_done. intros i e Hi Hs.
    apply (Hno (i - Z.of_nat (length a)) (e - Z.of_nat (length a))); [lia|].
    apply (span_at_unshift x); [lia|]. fold a.
    replace (i - Z.of_nat (length a) + Z.of_nat (length a)) with i by lia.
    replace (e - Z.of_nat (length a) + Z.of_nat (length a)) with e by lia.
    exact Hs.
  - pose proof (span_at_bounds _ _ _ Hs) as [B _].
    unfold shift_span at 1. simpl. apply spans_next.
    + lia.
    + apply span_at_shift. exact Hs.
    + intros j e' Hj Hsj.
      apply (Hleft (j - Z.of_nat (length a)) (e' - Z.of_nat (length a))); [lia|].
      apply (span_at_unshift x); [lia|]. fold a.
      replace (j - Z.of_nat (length a) + Z.of_nat (length a)) with j by lia.
      replace (e' - Z.of_nat (length a) + Z.of_nat (length a)) with e' by lia.
      exact Hsj.
    + apply IH. lia.
Qed.

Lemma spans_from_lower text pos pos' l :
  spans_from text pos' l -> pos <= pos' ->
  (forall j e, pos <= j < pos' -> ~ span_at text j e) ->
  spans_from text pos l.
Proof.
  intros H Hp Hno. inversion H as [? Hno'|? i e rest Hi Hs Hleft Hrest]; subst.
  - apply spans_done. intros i e Hi Hs.
    destruct (Z.lt_ge_cases i pos'); [apply (Hno i e); [lia | exact Hs]|].
    apply (Hno' i e); assumption.
  - apply spans_next; auto; [lia|].
    intros j e' Hj Hsj.
    destruct (Z.lt_ge_cases j pos'); [apply (Hno j e'); [lia | exact Hsj]|].
    apply (Hleft j e'); [lia | exact Hsj].
Qed.

Lemma spans_from_pieces x b l2 :
  spans_from b 0 l2 ->
  forall pos l1,
    spans_from (x ++ [dot]) pos l1 -> 0 <= pos <= Z.of_nat (length (x ++ [dot])) ->
    spans_from ((x ++ [dot]) ++ b) pos
               (l1 ++ map (shift_span (Z.of_nat (length (x ++ [dot])))) l2).
Proof.
  set (a := x ++ [dot]). intros H2 pos l1 H.
  induction H as [pos Hno|pos i e rest Hi Hs Hleft _ IH]; intros Hpos; simpl.
  - apply (spans_from_lower _ pos (Z.of_nat (length a))); [|lia|].
    + apply (spans_from_shift x b 0 l2 H2). lia.
    + intros j e Hj Hsj. apply (Hno j e); [lia|].
      apply (span_at_restrict a b); [exact Hsj|].
      apply (span_in_first x b j e Hsj). fold a. lia.
  - pose proof (span_at_bounds _ _ _ Hs) as [B1 B2].
    apply spans_next; auto.
    + apply span_at_extend. exact Hs.
    + intros j e' Hj Hsj. apply (Hleft j e' Hj).
      apply (span_at_restrict a b); [exact Hsj|].
      apply (span_in_first x b j e' Hsj). fold a. lia.
    + apply IH. lia.
Qed.

Lemma py_slice_shift (a b : list ascii) (s e : Z) :
  0 <= s <= e -> e <= Z.of_nat (length b) ->
  py_slice (a ++ b) (s + Z.of_nat (length a)) (e + Z.of_nat (length a))
  = py_slice b s e.
Proof.
  intros Hs He. rewrite !py_slice_substring by (rewrite ?length_app; lia).
  unfold substring.
  replace (Z.to_nat (s + Z.of_nat (length a))) with (length a + Z.to_nat s)%nat by lia.
  replace (Z.to_nat (e + Z.of_nat (length a)) - (length a + Z.to_nat s))%nat
    with (Z.to_nat e - Z.to_nat s)%nat by lia.
  rewrite skipn_app, skipn_all2 by lia.
  replace (length a + Z.to_nat s - length a)%nat with (Z.to_nat s) by lia.
  reflexivity.
Qed.

Lemma line_of_offset_shift (a b : list ascii) (s : Z) :
  0 <= s ->
  line_of_offset (a ++ b) (s + Z.of_nat (length a))
  = line_of_offset b s + Z.of_nat (newlines a).
Proof.
  intros Hs. rewrite !line_of_offset_spec by lia. unfold newlines_before, newlines.
  replace (Z.to_nat (s + Z.of_nat (length a))) with (length a + Z.to_nat s)%nat by lia.
  rewrite firstn_app_2, count_occ_app. lia.
Qed.

Lemma scan_step_shift unit unit' a b m m' :
  shifted_span (Z.of_nat (length a)) m m' ->
  m_string m = b -> m_string m' = a ++ b ->
  0 <= m_start m <= m_end m -> m_end m <= Z.of_nat (length b) ->
  Forall2 (same_verdict_below (Z.of_nat (newlines a)))
          (scan_step unit b [] m) (scan_step unit' (a ++ b) [] m').
Proof.
  intros [Es Ee] Hb Hab B1 B2.
  assert (G : group0 m' = group0 m).
  { unfold group0. rewrite Hb, Hab, Es, Ee. apply py_slice_shift; lia. }
  unfold scan_step. rewrite G.
  assert (L : line_of_offset (a ++ b) (m_start m')
              = line_of_offset b (m_start m) + Z.of_nat (newlines a))
    by (rewrite Es; apply line_of_offset_shift; lia).
  destruct (negb (has_mode (group0 m))).
  - repeat constructor. simpl. exact L.
  - destruct (is_text_mode (group0 m) && negb (has_encoding (group0 m))).
    + repeat constructor. simpl. exact L.
    + constructor.
Qed.

Lemma map_span_of_same ms : forall ks,
  map span_of ks = map span_of ms -> Forall2 same_span ms ks.
Proof.
  induction ms as [|m ms IH]; intros [|k ks] E; try discriminate; constructor.
  - injection E as E1 E2 _. split; congruence.
  - apply IH. injection E as _ _ E. exact E.
Qed.

Lemma map_span_of_shifted n ms : forall ks,
  map span_of ks = map (shift_span n) (map span_of ms) ->
  Forall2 (shifted_span n) ms ks.
Proof.
  induction ms as [|m ms IH]; intros [|k ks] E; try discriminate; constructor.
  - injection E as E1 E2 _. split; assumption.
  - apply IH. injection E as _ _ E. exact E.
Qed.

Lemma finditer_pieces x b :
  exists first second,
    finditer STMT_RE ((x ++ [dot]) ++ b) = first ++ second /\
    Forall2 same_span (finditer STMT_RE (x ++ [dot])) first /\
    Forall2 (shifted_span (Z.of_nat (length (x ++ [dot]))))
            (finditer STMT_RE b) second.
Proof.
  pose proof (spans_from_pieces x b _ (finditer_spans b) 0 _
                (finditer_spans (x ++ [dot])) ltac:(lia)) as H.
  pose proof (spans_from_unique _ _ _ _ H (finditer_spans ((x ++ [dot]) ++ b))) as E.
  symmetry in E. apply map_eq_app in E as (first & second & E & E1 & E2).
  exists first, second. split; [exact E|]. split.
  - apply map_span_of_same. exact E1.
  - apply map_span_of_shifted. exact E2.
Qed.

(** X14.  A text can be scanned in pieces cut after a full stop: the
    statements of the whole are those of the first piece followed by
    those of the second, moved by the length of the first; the
    findings of the whole are those of the first piece followed by
    those of the second, with the same issue types and severities, the
    lines of the second piece counted on from the newlines of the
    first. *)
Theorem scan_in_pieces (whole first second : Unit.t) (x : list ascii) :
  src_of first = x ++ [dot] ->
  src_of whole = src_of first ++ src_of second ->
  exists ms1 ms2,
    finditer STMT_RE (src_of whole) = ms1 ++ ms2 /\
    Forall2 same_span (finditer STMT_RE (src_of first)) ms1 /\
    Forall2 (shifted_span (Z.of_nat (length (src_of first))))
            (finditer STMT_RE (src_of second)) ms2 /\
    exists fs1 fs2,
      scan_findings whole = fs1 ++ fs2 /\
      Forall2 same_verdict (scan_findings first) fs1 /\
      Forall2 (same_verdict_below (Z.of_nat (newlines (src_of first))))
              (scan_findings second) fs2.
Proof.
  intros Ea Ew. set (a := src_of first) in *. set (b := src_of second) in *.
  destruct (finditer_pieces x b) as (ms1 & ms2 & Ef & F1 & F2).
  rewrite <- Ea, <- Ew in Ef. rewrite <- Ea in F1, F2.
  exists ms1, ms2. split; [exact Ef|]. split; [exact F1|]. split; [exact F2|].
  exists (flat_map (scan_step whole (src_of whole) []) ms1),
         (flat_map (scan_step whole (src_of whole) []) ms2).
  split; [rewrite scan_findings_flat, Ef, flat_map_app; reflexivity|].
  assert (Hs : Forall (fun m' => m_string m' = a ++ b) (ms1 ++ ms2)).
  { rewrite <- Ef, <- Ew. apply (finditer_fuel_string STMT_RE (src_of whole)). }
  apply Forall_app in Hs as [Hs1 Hs2].
  rewrite !scan_findings_flat. fold a b. rewrite Ew. clear Ef. split.
  - pose proof (finditer_statements a) as Ha.
    induction F1 as [|m m' ms ks Hmm _ IH]; simpl; [constructor|].
    inversion Ha as [|? ? Hm Ha']; subst. inversion Hs1 as [|? ? Hm' Hk']; subst.
    apply Forall2_app; [|apply IH; assumption].
    pose proof (statement_match_bounds _ _ Hm) as [B1 B2].
    apply scan_step_prefix; auto; [apply Hm | lia].
  - pose proof (finditer_statements b) as Hb.
    induction F2 as [|m m' ms ks Hmm _ IH]; simpl; [constructor|].
    inversion Hb as [|? ? Hm Hb']; subst. inversion Hs2 as [|? ? Hm' Hk']; subst.
    apply Forall2_app; [|apply IH; assumption].
    pose proof (statement_match_bounds _ _ Hm) as [B1 B2].
    apply scan_step_shift; auto; [apply Hm | lia].
Qed.

Lemma scan_in_pieces_witness :
  let first :=
    sample_unit (Some ("REPORT zdemo." ++ lf ++ "OPEN DATASET lv_a FOR OUTPUT.")%string) in
  let second :=
    sample_unit (Some (lf ++ "open dataset lv_b for input in text mode." ++ lf)%string) in
  let whole :=
    sample_unit (Some ("REPORT zdemo." ++ lf ++ "OPEN DATASET lv_a FOR OUTPUT." ++ lf ++
                       "open dataset lv_b for input in text mode." ++ lf)%string) in
  src_of whole = src_of first ++ src_of second /\
  exists ms1 ms2,
    finditer STMT_RE (src_of whole) = ms1 ++ ms2 /\
    Forall2 same_span (finditer STMT_RE (src_of first)) ms1 /\
    Forall2 (shifted_span (Z.of_nat (length (src_of first))))
            (finditer STMT_RE (src_of second)) ms2 /\
    exists fs1 fs2,
      scan_findings whole = fs1 ++ fs2 /\
      Forall2 same_verdict (scan_findings first) fs1 /\
      Forall2 (same_verdict_below (Z.of_nat (newlines (src_of first))))
              (scan_findings second) fs2.
Proof.
  intros first second whole.
  assert (E : src_of whole = src_of first ++ src_of second) by reflexivity.
  split; [exact E|].
  exact (scan_in_pieces whole first second
           (list_ascii_of_string ("REPORT zdemo." ++ lf ++ "OPEN DATASET lv_a FOR OUTPUT"))
           eq_refl E).
Defined.

(* ------------------------------------------------------------------ *)
(** * White space of another kind *)

Lemma blank_variant_length t t' : blank_variant t t' -> length t = length t'.
Proof. apply Forall2_length. Qed.

Lemma blank_variant_firstn n : forall t t',
  blank_variant t t' -> blank_variant (firstn n t) (firstn n t').
Proof.
  induction n as [|n IH]; intros t t' H; simpl; [constructor|].
  destruct H; constructor; auto. apply IH. assumption.
Qed.

Lemma blank_variant_skipn n : forall t t',
  blank_variant t t' -> blank_variant (skipn n t) (skipn n t').
Proof.
  induction n as [|n IH]; intros t t' H; simpl; [exact H|].
  destruct H; [constructor|]. apply IH. assumption.
Qed.

Lemma blank_variant_slice t t' a b :
  blank_variant t t' -> blank_variant (py_slice t a b) (py_slice t' a b).
Proof.
  intros H. unfold py_slice. rewrite <- (blank_variant_length _ _ H).
  apply blank_variant_firstn, blank_variant_skipn, H.
Qed.

Lemma same_blank_word x y : same_blank x y -> is_word x = is_word y.
Proof.
  intros [->|[Hx Hy]]; [reflexivity|].
  rewrite (space_not_word _ Hx), (space_not_word _ Hy). reflexivity.
Qed.

Lemma same_blank_space x y : same_blank x y -> is_space x = is_space y.
Proof. intros [->|[Hx Hy]]; congruence. Qed.

Lemma same_blank_not_space x y : same_blank x y -> not_space x = not_space y.
Proof. intros H. unfold not_space. f_equal. apply same_blank_space, H. Qed.

Lemma space_is_no_dot x : is_space x = true -> Ascii.eqb x dot = false.
Proof.
  intros H. destruct (Ascii.eqb_spec x dot) as [->|]; [discriminate H | reflexivity].
Qed.

Lemma same_blank_not_dot x y : same_blank x y -> not_dot x = not_dot y.
Proof.
  intros [->|[Hx Hy]]; [reflexivity|]. unfold not_dot.
  rewrite (space_is_no_dot _ Hx), (space_is_no_dot _ Hy). reflexivity.
Qed.

Lemma same_blank_literal k x y :
  is_space (lower k) = false -> same_blank x y -> ci_eqb k x = ci_eqb k y.
Proof.
  intros Hk [->|[Hx Hy]]; [reflexivity|]. unfold ci_eqb.
  assert (N : forall z, is_space z = true -> Ascii.eqb (lower z) (lower k) = false).
  { intros z Hz. destruct (Ascii.eqb_spec (lower z) (lower k)) as [E|]; [|reflexivity].
    rewrite <- E, lower_is_space, Hz in Hk. discriminate. }
  rewrite (N x Hx), (N y Hy). reflexivity.
Qed.

Lemma blank_variant_word_at t t' : blank_variant t t' -> word_at t = word_at t'.
Proof. intros [|x y ? ? E _]; [reflexivity|]. simpl. apply same_blank_word, E. Qed.

Lemma blank_cursor_offset c c' : blank_cursor_rel c c' -> offset c = offset c'.
Proof.
  intros [H _]. unfold offset. rewrite (blank_variant_length _ _ H). reflexivity.
Qed.

Section ExecBlank.
Context {X Y : Type} (R : X -> Y -> Prop).
Implicit Types (k : cursor -> option X) (h : cursor -> option Y).

Lemma exec_star_blank p k h :
  (forall x y, same_blank x y -> p x = p y) -> blank_cont_rel R k h ->
  forall s s', blank_variant s s' ->
  forall b b', blank_variant b b' ->
    option_rel R (exec_star p k b s) (exec_star p h b' s').
Proof.
  intros Hp Hk s s' Hs.
  induction Hs as [|x y s s' E Hs IH]; intros b b' Hb; simpl.
  - apply Hk. split; [exact Hb | constructor].
  - assert (Hhere : option_rel R (k (Cursor b (x :: s))) (h (Cursor b' (y :: s'))))
      by (apply Hk; split; [exact Hb | constructor; assumption]).
    rewrite <- (Hp x y E). destruct (p x); [|exact Hhere].
    apply option_rel_orelse; [|exact Hhere].
    apply IH. constructor; assumption.
Qed.

Lemma exec_blank r : blank_blind r ->
  forall c c' k h, blank_cursor_rel c c' -> blank_cont_rel R k h ->
    option_rel R (exec r c k) (exec r c' h).
Proof.
  induction r as [|a|p| |r1 IH1 r2 IH2|r1 IH1 r2 IH2|p];
    intros Hr [b s] [b' s'] k h [Hb Hs] Hk; simpl in *.
  - apply Hk. split; assumption.
  - destruct Hs as [|x y s s' E Hs]; [exact I|].
    rewrite <- (same_blank_literal a x y Hr E). destruct (ci_eqb a x); [|exact I].
    apply Hk. split; [constructor|]; assumption.
  - destruct Hs as [|x y s s' E Hs]; [exact I|].
    rewrite <- (Hr x y E). destruct (p x); [|exact I].
    apply Hk. split; [constructor|]; assumption.
  - unfold at_boundary. simpl.
    rewrite (blank_variant_word_at _ _ Hb), (blank_variant_word_at _ _ Hs).
    destruct (xorb _ _); [|exact I]. apply Hk. split; assumption.
  - destruct Hr as [Hr1 Hr2]. apply IH1; [exact Hr1 | split; assumption|].
    intros d d' Hd. apply IH2; assumption.
  - destruct Hr as [Hr1 Hr2]. apply option_rel_orelse.
    + apply IH1; [exact Hr1 | split; assumption | exact Hk].
    + apply IH2; [exact Hr2 | split; assumption | exact Hk].
  - apply exec_star_blank; assumption.
Qed.
End ExecBlank.

Lemma match_at_blank r c c' :
  blank_blind r -> blank_cursor_rel c c' ->
  option_rel blank_cursor_rel (match_at r c) (match_at r c').
Proof.
  intros Hr Hc. unfold match_at. apply exec_blank; [exact Hr | exact Hc|].
  intros d d' Hd. exact Hd.
Qed.

Lemma search_from_blank r : blank_blind r ->
  forall s s', blank_variant s s' ->
  forall b b', blank_variant b b' ->
    option_rel (fun p p' => blank_cursor_rel (fst p) (fst p')
                            /\ blank_cursor_rel (snd p) (snd p'))
               (search_from r b s) (search_from r b' s').
Proof.
  intros Hr s s' Hs. induction Hs as [|x y s s' E Hs IH]; intros b b' Hb; simpl.
  - assert (Hc : blank_cursor_rel (Cursor b []) (Cursor b' []))
      by (split; [assumption | constructor]).
    pose proof (match_at_blank r _ _ Hr Hc) as M.
    destruct (match_at r (Cursor b [])), (match_at r (Cursor b' []));
      simpl in *; try contradiction; [|exact I].
    split; assumption.
  - assert (Hc : blank_cursor_rel (Cursor b (x :: s)) (Cursor b' (y :: s')))
      by (split; [assumption | constructor; assumption]).
    pose proof (match_at_blank r _ _ Hr Hc) as M.
    destruct (match_at r (Cursor b (x :: s))), (match_at r (Cursor b' (y :: s')));
      simpl in *; try contradiction.
    + split; assumption.
    + apply IH. constructor; assumption.
Qed.

Lemma found_blank r s s' :
  blank_blind r -> blank_variant s s' -> found r s = found r s'.
Proof.
  intros Hr Hs. unfold found, search.
  pose proof (search_from_blank r Hr s s' Hs [] [] (Forall2_nil _)) as H.
  destruct (search_from r [] s), (search_from r [] s'); simpl in H;
    (reflexivity || contradiction).
Qed.

Lemma finditer_fuel_blank r text text' :
  blank_blind r -> blank_variant text text' ->
  forall fuel c c', blank_cursor_rel c c' ->
    Forall2 blank_match_rel (finditer_fuel fuel r text c)
            (finditer_fuel fuel r text' c').
Proof.
  intros Hr Ht. induction fuel as [|fuel IH]; intros c c' [Hb Hs]; simpl;
    [constructor|].
  pose proof (search_from_blank r Hr _ _ Hs _ _ Hb) as H.
  destruct (search_from r (before c) (after c)) as [[s e]|],
           (search_from r (before c') (after c')) as [[s' e']|];
    simpl in H; try contradiction; [|constructor].
  destruct H as [H1 H2]. constructor.
  - repeat split; simpl; auto using blank_cursor_offset.
  - apply IH. exact H2.
Qed.

Lemma kw_blank_blind k :
  forallb (fun a => negb (is_space (lower a))) (list_ascii_of_string k) = true ->
  blank_blind (kw k).
Proof.
  unfold kw. induction (list_ascii_of_string k) as [|a l IH]; simpl; [auto|].
  intros H. apply andb_true_iff in H as [Ha Hl]. split; [|apply IH; exact Hl].
  destruct (is_space (lower a)); [discriminate | reflexivity].
Qed.

Lemma patterns_blank_blind :
  blank_blind STMT_RE /\ blank_blind MODE_RE /\
  blank_blind TEXT_MODE_RE /\ blank_blind ENCODING_RE.
Proof.
  repeat split;
    try (apply kw_blank_blind; reflexivity);
    try exact same_blank_space;
    try exact same_blank_not_space;
    try exact same_blank_not_dot.
Qed.

Lemma scan_step_blank unit unit' src src' m m' :
  blank_match_rel m m' ->
  Forall2 same_kind (scan_step unit src [] m) (scan_step unit' src' [] m').
Proof.
  intros (Hs & He & Ht).
  assert (Hg : blank_variant (group0 m) (group0 m'))
    by (unfold group0; rewrite Hs, He; apply blank_variant_slice, Ht).
  destruct patterns_blank_blind as (_ & B1 & B2 & B3).
  unfold scan_step, has_mode, is_text_mode, has_encoding.
  rewrite <- (found_blank _ _ _ B1 Hg), <- (found_blank _ _ _ B2 Hg),
          <- (found_blank _ _ _ B3 Hg).
  destruct (negb (found MODE_RE (group0 m))).
  - repeat constructor.
  - destruct (found TEXT_MODE_RE (group0 m) && negb (found ENCODING_RE (group0 m))).
    + repeat constructor.
    + constructor.
Qed.

(** X15.  The kind of white space does not matter: when white-space
    characters of a text are replaced by other white-space characters
    (a line break by a blank, a blank by a tab), the statements stay at
    the same offsets and the findings keep their issue types and
    severities, one by one. *)
Theorem scan_ignores_kind_of_white_space (unit unit' : Unit.t) :
  blank_variant (src_of unit) (src_of unit') ->
  map span_of (finditer STMT_RE (src_of unit))
  = map span_of (finditer STMT_RE (src_of unit')) /\
  Forall2 same_kind (scan_findings unit) (scan_findings unit').
Proof.
  intros H. destruct patterns_blank_blind as (B0 & _).
  assert (F : Forall2 blank_match_rel (finditer STMT_RE (src_of unit))
                      (finditer STMT_RE (src_of unit'))).
  { unfold finditer. rewrite <- (blank_variant_length _ _ H).
    apply finditer_fuel_blank; auto. split; [constructor | exact H]. }
  split.
  - induction F as [|m m' ? ? (Hs & He & _) _ IH]; simpl; [reflexivity|].
    rewrite IH. unfold span_of. rewrite Hs, He. reflexivity.
  - rewrite !scan_findings_flat.
    eapply Forall2_flat_map; [exact F|].
    intros m m' Hm. apply scan_step_blank; assumption.
Qed.

Lemma scan_ignores_kind_of_white_space_witness :
  let one_line := sample_unit (Some "OPEN DATASET lv_f FOR INPUT IN TEXT MODE."%string) in
  let three_lines :=
    sample_unit (Some ("OPEN" ++ lf ++ "DATASET lv_f FOR INPUT" ++ lf
                       ++ "IN TEXT MODE.")%string) in
  blank_variant (src_of one_line) (src_of three_lines) /\
  map span_of (finditer STMT_RE (src_of one_line))
  = map span_of (finditer STMT_RE (src_of three_lines)) /\
  Forall2 same_kind (scan_findings one_line) (scan_findings three_lines).
Proof.
  intros one_line three_lines.
  assert (H : blank_variant (src_of one_line) (src_of three_lines)).
  { vm_compute.
    repeat (constructor; [first [left; reflexivity | right; split; reflexivity]|]).
    constructor. }
  split; [exact H|]. exact (scan_ignores_kind_of_white_space one_line three_lines H).
Defined.
